(** * The local note store of the Flickr MCP server

    A shallow embedding of [src/notes-db.ts] (the JSON-file note store),
    of the note tools of [src/tools/notes.ts], of the Flickr client
    ([flickr-client.ts], [auth.ts], [constants.ts]) as far as the start of
    the server goes, and of [main] of [index.ts], with the properties of
    the store, of the tools and of the start stated and proved over it.

    Conventions of the embedding.
    - A JavaScript [number] that holds a note id is a [Z].  The arithmetic
      on ids ([next_id++]) and the decimal an id is printed as are those of
      the integers, which are those of the code on the safe integers; a
      property that depends on either for a store read from a file says
      so with [safe_integer].
    - A JavaScript string is a [string] of one-byte code units.
      [toLowerCase] maps the letters A to Z, which is what the code does
      on ASCII text; a property that depends on which characters are
      folded says so with [ascii_text].  [localeCompare] compares code
      units, which is the collation order on the timestamps the store
      writes (see [localeCompare]); a property that depends on the order
      of the stamps of a store read from a file says so with [stamped].
    - The clock read by [new Date()] is an input of [addNote]: the time value
      in milliseconds since the epoch.  [toISOString] is spelled out from
      the time value; its calendar is checked against the definitions of
      ECMA-262 ([civil_year], [civil_month_date]).
    - [Array.prototype.sort] is the stable sort; a comparator that is a
      total preorder leaves it one possible result ([sort_unique]).
    - The module variable [data] and the file [notes.json] form the state
      threaded through every operation.  The file is held as the document
      [JSON.parse] reads from it: [JSON.stringify] and [JSON.parse] are
      inverse to each other on the numbers, strings, arrays and objects the
      store writes.  A write to the file succeeds: what the code does
      when [writeFileSync] throws is not described here.  An operation
      run before [initNotesDb] throws the [TypeError] of a property read
      on [undefined].
    - The environment is a map from names to strings, the answer of Flickr
      to the login an input of [initFlickrClient], and the standard error
      the list of the lines written to it. *)

From Stdlib Require Import Ascii.
From stdpp Require Import base numbers list strings sorting pretty gmap.

Local Open Scope Z_scope.

(** ** Strings: the methods of [String.prototype] the store calls *)

Module JsString.

(** [s.toLowerCase()] on ASCII text: the letters A to Z are the cased
    characters below 128.  Other characters are left as they are, which
    is not what the code does with the cased letters above 127. *)
Definition lower_char (c : ascii) : ascii :=
  let n := nat_of_ascii c in
  if ((65 <=? n) && (n <=? 90))%nat then ascii_of_nat (n + 32) else c.

Fixpoint toLowerCase (s : string) : string :=
  match s with
  | EmptyString => EmptyString
  | String c s' => String (lower_char c) (toLowerCase s')
  end.

(** [s.includes(pat)]: [pat] occurs in [s] at some position. *)
Fixpoint includes (s pat : string) : bool :=
  String.prefix pat s ||
  match s with
  | EmptyString => false
  | String _ s' => includes s' pat
  end.

(** [a.localeCompare(b)]: negative, zero or positive as [a] sorts before,
    with or after [b].  Code units are compared from the left; on two
    timestamps written by [addNote], which have the same punctuation at the
    same places and differ in digits only, every collation gives this
    order. *)
Definition localeCompare (a b : string) : Z :=
  match String.compare a b with
  | Eq => 0
  | Lt => -1
  | Gt => 1
  end.

Fixpoint skip (n : nat) (s : string) : string :=
  match n, s with
  | O, _ => s
  | S n', String _ s' => skip n' s'
  | S _, EmptyString => EmptyString
  end.

(** [s.replace(pat, rep)] with a string pattern: the first occurrence of
    [pat] is replaced, the rest is left as it is. *)
Fixpoint replace (pat rep s : string) : string :=
  if String.prefix pat s then rep +:+ skip (String.length pat) s
  else match s with
       | EmptyString => EmptyString
       | String c s' => String c (replace pat rep s')
       end.

(** [s.slice(b, e)] for [0 <= b <= e]. *)
Definition slice (b e : nat) (s : string) : string :=
  String.substring b (e - b) s.

(** What "contains [q] as a case-insensitive substring" says, stated
    without reference to the code: some window of the text is [q] letter
    by letter, where a capital letter and its small letter count as the
    same. *)
Definition is_capital (c : ascii) : Prop :=
  (65 ≤ nat_of_ascii c ≤ 90)%nat.

Definition same_letter (a b : ascii) : Prop :=
  a = b ∨
  (is_capital a ∧ nat_of_ascii b = nat_of_ascii a + 32)%nat ∨
  (is_capital b ∧ nat_of_ascii a = nat_of_ascii b + 32)%nat.

Inductive same_ignoring_case : string → string → Prop :=
| same_empty : same_ignoring_case EmptyString EmptyString
| same_String a b s t :
    same_letter a b → same_ignoring_case s t →
    same_ignoring_case (String a s) (String b t).


(** Text of ASCII characters only, the text on which [toLowerCase] above
    is the function of the code. *)
Fixpoint ascii_text (s : string) : bool :=
  match s with
  | EmptyString => true
  | String c s' => (nat_of_ascii c <? 128)%nat && ascii_text s'
  end.

End JsString.

(** ** Dates: [Date.prototype.toISOString] *)

Module JsDate.

Definition msPerSecond : Z := 1000.
Definition msPerMinute : Z := 60000.
Definition msPerHour : Z := 3600000.
Definition msPerDay : Z := 86400000.

Definition Day (t : Z) : Z := t `div` msPerDay.
Definition HourFromTime (t : Z) : Z := (t `div` msPerHour) `mod` 24.
Definition MinFromTime (t : Z) : Z := (t `div` msPerMinute) `mod` 60.
Definition SecFromTime (t : Z) : Z := (t `div` msPerSecond) `mod` 60.
Definition msFromTime (t : Z) : Z := t `mod` msPerSecond.

(** The calendar works in eras of 400 years, 146097 days each, that start
    on a first of March, so that the leap day is the last day of a year.
    [year_start y] is the day of the era on which the year [y] of the era
    starts, [year_of_era] the year of the era a day of the era falls in. *)
Definition year_start (yoe : Z) : Z :=
  365 * yoe + yoe `div` 4 - yoe `div` 100.

Definition year_of_era (doe : Z) : Z :=
  (doe - doe `div` 1460 + doe `div` 36524 - doe `div` 146096) `div` 365.

(** Months counted from March (0) to February (11): the month a day of
    the year falls in, and the day of the year a month starts on. *)
Definition month_index (doy : Z) : Z := (5 * doy + 2) `div` 153.
Definition month_start (mp : Z) : Z := (153 * mp + 2) `div` 5.

(** Year, month (1 to 12) and day of the month (1 to 31) of a day number
    counted from 1970-01-01, in the proleptic Gregorian calendar. *)
Definition civil (days : Z) : Z * Z * Z :=
  let z := days + 719468 in
  let era := z `div` 146097 in
  let doe := z `mod` 146097 in
  let yoe := year_of_era doe in
  let doy := doe - year_start yoe in
  let mp := month_index doy in
  let d := doy - month_start mp + 1 in
  let m := if decide (mp < 10) then mp + 3 else mp - 9 in
  let y := yoe + era * 400 in
  (if decide (m ≤ 2) then y + 1 else y, m, d).

(** The same three numbers the way ECMA-262 defines them: the year is the
    one whose first day [DayFromYear] is the last not after the day, the
    month and the date are read off the day within the year and the leap
    day.  [civil] is checked against them below. *)
Definition DayFromYear (y : Z) : Z :=
  365 * (y - 1970) + (y - 1969) `div` 4 - (y - 1901) `div` 100
  + (y - 1601) `div` 400.

Definition InLeapYear (y : Z) : Z :=
  if decide (y `mod` 4 = 0 ∧ (y `mod` 100 ≠ 0 ∨ y `mod` 400 = 0))
  then 1 else 0.

Definition month_and_date (dwy leap : Z) : Z * Z :=
  if decide (dwy < 31) then (1, dwy + 1)
  else if decide (dwy < 59 + leap) then (2, dwy - 30)
  else if decide (dwy < 90 + leap) then (3, dwy - 58 - leap)
  else if decide (dwy < 120 + leap) then (4, dwy - 89 - leap)
  else if decide (dwy < 151 + leap) then (5, dwy - 119 - leap)
  else if decide (dwy < 181 + leap) then (6, dwy - 150 - leap)
  else if decide (dwy < 212 + leap) then (7, dwy - 180 - leap)
  else if decide (dwy < 243 + leap) then (8, dwy - 211 - leap)
  else if decide (dwy < 273 + leap) then (9, dwy - 242 - leap)
  else if decide (dwy < 304 + leap) then (10, dwy - 272 - leap)
  else if decide (dwy < 334 + leap) then (11, dwy - 303 - leap)
  else (12, dwy - 333 - leap).

(** One date comes before another: by the year, then the month, then the
    day. *)
Definition earlier_date (a b : Z * Z * Z) : Prop :=
  a.1.1 < b.1.1 ∨
  a.1.1 = b.1.1 ∧ (a.1.2 < b.1.2 ∨ a.1.2 = b.1.2 ∧ a.2 < b.2).

Definition YearFromTime (t : Z) : Z := (civil (Day t)).1.1.
Definition MonthFromTime (t : Z) : Z := (civil (Day t)).1.2.
Definition DateFromTime (t : Z) : Z := (civil (Day t)).2.

Definition digit (n : Z) : ascii :=
  ascii_of_nat (48 + Z.to_nat (n `mod` 10)).

(** The last [k] decimal digits of [n], zero padded. *)
Fixpoint digits (k : nat) (n : Z) : string :=
  match k with
  | O => EmptyString
  | S k' => digits k' (n `div` 10) +:+ String (digit n) EmptyString
  end.

(** Four digits for the years 0 to 9999, a sign and six digits for the
    others. *)
Definition year_string (y : Z) : string :=
  if decide (0 ≤ y ≤ 9999) then digits 4 y
  else (if decide (y < 0) then "-" else "+") +:+ digits 6 (Z.abs y).

Definition toISOString (t : Z) : string :=
  year_string (YearFromTime t) +:+ "-" +:+
  digits 2 (MonthFromTime t) +:+ "-" +:+
  digits 2 (DateFromTime t) +:+ "T" +:+
  digits 2 (HourFromTime t) +:+ ":" +:+
  digits 2 (MinFromTime t) +:+ ":" +:+
  digits 2 (SecFromTime t) +:+ "." +:+
  digits 3 (msFromTime t) +:+ "Z".

End JsDate.

(** ** Arrays: [Array.prototype.sort] with a comparator *)

Module JsArray.
Section sort.
Context {A : Type} (cmp : A → A → Z).

(** [x] stood before every element of [l]; it stays before the first
    one it does not sort after. *)
Fixpoint insert_sorted (x : A) (l : list A) : list A :=
  match l with
  | [] => [x]
  | y :: l' =>
      if decide (cmp x y ≤ 0) then x :: y :: l'
      else y :: insert_sorted x l'
  end.

(** The stable sort: elements the comparator does not separate keep
    the order they had. *)
Definition sort (l : list A) : list A := foldr insert_sorted [] l.

(** The comparator lets [a] stand before [b]. *)
Definition before (a b : A) : Prop := cmp a b ≤ 0.

(** The comparator does not separate [a] and [b]. *)
Definition tied (a b : A) : Prop := before a b ∧ before b a.

Global Instance before_dec a b : Decision (before a b).
Proof. unfold before. apply _. Defined.
Global Instance tied_dec a b : Decision (tied a b).
Proof. unfold tied. apply _. Defined.
End sort.
End JsArray.

(** ** The note store: [src/notes-db.ts] *)

Module NotesDb.
Import JsString JsDate JsArray.

Inductive EntityType := photo | album | group.

Record NoteRow := mkNoteRow {
  id : Z;
  entity_type : EntityType;
  entity_id : string;
  note : string;
  created_at : string;
}.

Record NotesData := mkNotesData {
  next_id : Z;
  notes : list NoteRow;
}.

(** The state the module's functions act on: the variable [data]
    ([None] while it is still [undefined]) and the file at [JSON_PATH]
    ([None] while it does not exist, else the document it holds, which
    [JSON.stringify] wrote and [JSON.parse] reads back). *)
Record World := mkWorld {
  data : option NotesData;
  file : option NotesData;
}.

(** What a function of the module can throw: the [TypeError] of the
    language, or the system error of a file operation. *)
Inductive error :=
| TypeError (message : string)
| SystemError (message : string).

Definition message (e : error) : string :=
  match e with TypeError m | SystemError m => m end.

Global Instance EntityType_eq_dec : EqDecision EntityType.
Proof. solve_decision. Defined.
Global Instance NoteRow_eq_dec : EqDecision NoteRow.
Proof. solve_decision. Defined.
Global Instance NotesData_eq_dec : EqDecision NotesData.
Proof. solve_decision. Defined.

(** Computations that read and write the state and may throw. *)
Definition M (A : Type) : Type := World → (error + A) * World.

Global Instance M_ret : MRet M := λ A (a : A) w, (inr a, w).
Global Instance M_bind : MBind M := λ A B (k : A → M B) (m : M A) w,
  match m w with
  | (inr a, w') => k a w'
  | (inl e, w') => (inl e, w')
  end.

Definition throw {A : Type} (e : error) : M A := λ w, (inl e, w).

(** A read of [data.prop]: the value of [data], or the [TypeError] of a
    property read on [undefined]. *)
Definition the_data (prop : string) : M NotesData := λ w,
  match data w with
  | Some d => (inr d, w)
  | None =>
      throw (TypeError ("Cannot read properties of undefined (reading '"
                        +:+ prop +:+ "')")) w
  end.

Definition put_data (d : NotesData) : M () := λ w,
  (inr (), {| data := Some d; file := file w |}).

Definition existsSync : M bool := λ w,
  (inr (bool_decide (is_Some (file w))), w).

(** [JSON.parse(readFileSync(JSON_PATH, "utf-8"))]. *)
Definition readFileSync : M NotesData := λ w,
  match file w with
  | Some doc => (inr doc, w)
  | None => throw (SystemError "ENOENT: no such file or directory") w
  end.

(** [writeFileSync(JSON_PATH, JSON.stringify(data, null, 2))], for a
    write that succeeds. *)
Definition save : M () := λ w,
  match data w with
  | Some d => (inr (), {| data := data w; file := Some d |})
  | None => throw (TypeError "The data argument must be of type string") w
  end.

Definition initNotesDb : M () :=
  present ← existsSync;
  if present : bool then
    doc ← readFileSync;
    put_data doc
  else
    put_data {| next_id := 1; notes := [] |};;
    save.

(** [new Date().toISOString().replace("T", " ").slice(0, 19)], with [now]
    the time value of [new Date()]. *)
Definition timestamp (now : Z) : string :=
  slice 0 19 (replace "T" " " (toISOString now)).

(** [data.next_id++] adds one on the integers, which is what the code
    does while [next_id] is a safe integer. *)
Definition addNote (entityType : EntityType) (entityId note : string)
    (now : Z) : M NoteRow :=
  d ← the_data "next_id";
  let row := {| id := next_id d;
                entity_type := entityType;
                entity_id := entityId;
                note := note;
                created_at := timestamp now |} in
  put_data {| next_id := next_id d + 1; notes := notes d ++ [row] |};;
  save;;
  mret row.

(** The comparator [(a, b) => b.created_at.localeCompare(a.created_at)]. *)
Definition newest_first (a b : NoteRow) : Z :=
  localeCompare (created_at b) (created_at a).

Definition getNotes (entityType : EntityType) (entityId : string)
    : M (list NoteRow) :=
  d ← the_data "notes";
  mret (sort newest_first
          (filter (λ n, entity_type n = entityType ∧ entity_id n = entityId)
                  (notes d))).

Definition deleteNote (noteId : Z) : M bool :=
  d ← the_data "notes";
  match list_find (λ n, id n = noteId) (notes d) with
  | None => mret false
  | Some (idx, _) =>
      put_data {| next_id := next_id d; notes := delete idx (notes d) |};;
      save;;
      mret true
  end.

Definition searchNotes (query : string) : M (list NoteRow) :=
  d ← the_data "notes";
  let lower := toLowerCase query in
  mret (take 50
          (sort newest_first
             (filter (λ n, includes (toLowerCase (note n)) lower) (notes d)))).

(** A client of the store: the calls it makes, one after the other, and
    what each one gave back. *)
Inductive call :=
| Init
| Add (entityType : EntityType) (entityId note : string) (now : Z)
| Get (entityType : EntityType) (entityId : string)
| Delete (noteId : Z)
| Search (query : string).

Inductive answer :=
| Done
| Row (r : NoteRow)
| Rows (l : list NoteRow)
| Flag (b : bool)
| Threw (e : error).

Definition answered {A : Type} (f : A → answer) (m : M A)
    : World → answer * World := λ w,
  match m w with
  | (inr a, w') => (f a, w')
  | (inl e, w') => (Threw e, w')
  end.

Definition perform (c : call) : World → answer * World :=
  match c with
  | Init => answered (λ _, Done) initNotesDb
  | Add t i n now => answered Row (addNote t i n now)
  | Get t i => answered Rows (getNotes t i)
  | Delete nid => answered Flag (deleteNote nid)
  | Search q => answered Rows (searchNotes q)
  end.

Fixpoint run (cs : list call) (w : World) : list answer * World :=
  match cs with
  | [] => ([], w)
  | c :: cs' =>
      let '(a, w') := perform c w in
      let '(rest, w'') := run cs' w' in
      (a :: rest, w'')
  end.

(** A process that has just started, with no [notes.json] yet, and the
    same process after [initNotesDb]. *)
Definition boot : World := {| data := None; file := None |}.
Definition fresh_store : World := (initNotesDb boot).2.

(** A new process started against the file the old one left. *)
Definition restart (w : World) : World := {| data := None; file := file w |}.

(** Runs a function of the module symbolically, down to the reads of the
    state. *)
Ltac run_monad :=
  unfold initNotesDb, addNote, getNotes, deleteNote, searchNotes,
    existsSync, readFileSync, save, put_data, the_data, throw;
  unfold mbind, M_bind, mret, M_ret; simpl.

End NotesDb.

(** ** The note tools: [src/tools/notes.ts] *)

Module NoteTools.
Import NotesDb.

(** The arguments of a tool call: a JSON object. *)
Inductive json :=
| JNull
| JBool (b : bool)
| JNum (n : Z)
| JStr (s : string).

(** What the server answers to a tool call: the text of the one content
    item and the [isError] field ([None] when the handler leaves it out). *)
Record ToolResult := mkToolResult {
  text : string;
  isError : option bool;
}.

(** A call whose arguments fail the tool's schema is refused before the
    handler runs; otherwise the handler's result is the answer. *)
Inductive outcome :=
| InvalidParams
| Response (r : ToolResult).

Definition entity_type_name (t : EntityType) : string :=
  match t with photo => "photo" | album => "album" | group => "group" end.

(** [z.enum(["photo", "album", "group"])] *)
Definition z_entity_type (v : json) : option EntityType :=
  match v with
  | JStr s =>
      if decide (s = "photo") then Some photo
      else if decide (s = "album") then Some album
      else if decide (s = "group") then Some group
      else None
  | _ => None
  end.

(** [z.string()] *)
Definition z_string (v : json) : option string :=
  match v with JStr s => Some s | _ => None end.

(** [z.string().min(k)] *)
Definition z_string_min (k : nat) (v : json) : option string :=
  match v with
  | JStr s => if decide (k ≤ String.length s)%nat then Some s else None
  | _ => None
  end.

(** [z.number().int()] *)
Definition z_number_int (v : json) : option Z :=
  match v with JNum n => Some n | _ => None end.

Definition add_note_schema (args : gmap string json)
    : option (EntityType * string * string) :=
  t ← args !! "entity_type" ≫= z_entity_type;
  i ← args !! "entity_id" ≫= z_string;
  n ← args !! "note" ≫= z_string_min 1;
  Some (t, i, n).

(** The template literals of the handlers print an id in decimal, as
    [pretty] does, while the id is a safe integer. *)
Definition add_note_handler (t : EntityType) (i n : string) (now : Z)
    (w : World) : ToolResult * World :=
  match addNote t i n now w with
  | (inr row, w') =>
      ({| text := "Note #" +:+ pretty (id row) +:+ " added to " +:+
                  entity_type_name t +:+ " `" +:+ i +:+ "`:" +:+
                  String "010" ("> " +:+ n);
          isError := None |}, w')
  | (inl err, w') =>
      ({| text := "Failed to add note: " +:+ message err;
          isError := Some true |}, w')
  end.

Definition flickr_add_note (args : gmap string json) (now : Z)
    (w : World) : outcome * World :=
  match add_note_schema args with
  | None => (InvalidParams, w)
  | Some (t, i, n) =>
      let '(r, w') := add_note_handler t i n now w in (Response r, w')
  end.

Definition delete_note_schema (args : gmap string json) : option Z :=
  args !! "note_id" ≫= z_number_int.

Definition delete_note_handler (note_id : Z) (w : World)
    : ToolResult * World :=
  match deleteNote note_id w with
  | (inr deleted, w') =>
      if deleted : bool then
        ({| text := "Note #" +:+ pretty note_id +:+ " deleted.";
            isError := None |}, w')
      else
        ({| text := "Note #" +:+ pretty note_id +:+ " not found.";
            isError := Some true |}, w')
  | (inl err, w') =>
      ({| text := "Failed to delete note: " +:+ message err;
          isError := Some true |}, w')
  end.

Definition flickr_delete_note (args : gmap string json) (w : World)
    : outcome * World :=
  match delete_note_schema args with
  | None => (InvalidParams, w)
  | Some note_id =>
      let '(r, w') := delete_note_handler note_id w in (Response r, w')
  end.

(** The separator of [join("\n\n")] and the double quote of a template. *)
Definition blank_line : string := String "010" (String "010" EmptyString).
Definition quote : string := String "034" EmptyString.

(** [`[#${note.id}] (${note.created_at})\n> ${note.note}`] *)
Definition formatNote (n : NoteRow) : string :=
  "[#" +:+ pretty (id n) +:+ "] (" +:+ created_at n +:+ ")" +:+
  String "010" ("> " +:+ note n).

Definition formatNoteList (notes : list NoteRow) : string :=
  if decide (length notes = 0%nat) then "No notes found."
  else String.concat blank_line (formatNote <$> notes).

Definition get_notes_schema (args : gmap string json)
    : option (EntityType * string) :=
  t ← args !! "entity_type" ≫= z_entity_type;
  i ← args !! "entity_id" ≫= z_string;
  Some (t, i).

Definition get_notes_header (t : EntityType) (i : string) (count : nat)
    : string :=
  "**Notes on " +:+ entity_type_name t +:+ " `" +:+ i +:+ "`** (" +:+
  pretty count +:+ " total)" +:+ blank_line.

Definition get_notes_handler (t : EntityType) (i : string) (w : World)
    : ToolResult * World :=
  match getNotes t i w with
  | (inr notes, w') =>
      ({| text := get_notes_header t i (length notes) +:+ formatNoteList notes;
          isError := None |}, w')
  | (inl err, w') =>
      ({| text := "Failed to get notes: " +:+ message err;
          isError := Some true |}, w')
  end.

Definition flickr_get_notes (args : gmap string json) (w : World)
    : outcome * World :=
  match get_notes_schema args with
  | None => (InvalidParams, w)
  | Some (t, i) =>
      let '(r, w') := get_notes_handler t i w in (Response r, w')
  end.

Definition search_notes_schema (args : gmap string json) : option string :=
  args !! "query" ≫= z_string_min 1.

Definition search_notes_header (query : string) (count : nat) : string :=
  "**Notes matching " +:+ quote +:+ query +:+ quote +:+ "** (" +:+
  pretty count +:+ " found)" +:+ blank_line.

(** [`[#${n.id}] ${n.entity_type} \`${n.entity_id}\` (${n.created_at})\n> ${n.note}`] *)
Definition search_line (n : NoteRow) : string :=
  "[#" +:+ pretty (id n) +:+ "] " +:+ entity_type_name (entity_type n) +:+
  " `" +:+ entity_id n +:+ "` (" +:+ created_at n +:+ ")" +:+
  String "010" ("> " +:+ note n).

Definition search_notes_handler (query : string) (w : World)
    : ToolResult * World :=
  match searchNotes query w with
  | (inr notes, w') =>
      let lines := search_line <$> notes in
      ({| text := search_notes_header query (length notes) +:+
                  (if decide (0 < length lines)%nat
                   then String.concat blank_line lines
                   else "No notes found.");
          isError := None |}, w')
  | (inl err, w') =>
      ({| text := "Failed to search notes: " +:+ message err;
          isError := Some true |}, w')
  end.

Definition flickr_search_notes (args : gmap string json) (w : World)
    : outcome * World :=
  match search_notes_schema args with
  | None => (InvalidParams, w)
  | Some query =>
      let '(r, w') := search_notes_handler query w in (Response r, w')
  end.

End NoteTools.

(** ** The Flickr client: [flickr-client.ts], [auth.ts], [constants.ts] *)

Module FlickrClient.

(** [FLICKR_ERROR_MESSAGES] *)
Definition FLICKR_ERROR_MESSAGES : gmap Z string :=
  list_to_map
    [(1, "Photo/resource not found or not owned by you.");
     (2, "Permission denied. Check your OAuth tokens have write access.");
     (3, "This photo is already in that group's pool.");
     (5, "You've hit the limit for photos in this group's pool.");
     (96, "OAuth signature invalid. Re-run setup-auth to refresh tokens.");
     (98, "Authentication failed. Check your .env credentials.");
     (99, "Flickr user not found. Check your OAuth setup.")].

(** A caught value, as [formatFlickrError] looks at it: [undefined],
    [null], or a value with its [code] and [message] properties (when it
    has them) and the string [String(err)] makes of it. *)
Inductive caught :=
| Undefined
| Null
| Value (code : option Z) (message : option string) (as_string : string).

Definition code_of (err : caught) : option Z :=
  match err with Value c _ _ => c | _ => None end.

Definition message_of (err : caught) : option string :=
  match err with Value _ m _ => m | _ => None end.

(** [String(err)] *)
Definition String_of (err : caught) : string :=
  match err with
  | Undefined => "undefined"
  | Null => "null"
  | Value _ _ s => s
  end.

(** A number is truthy unless it is zero, a string unless it is empty, a
    missing property never. *)
Definition truthy_number (v : option Z) : bool :=
  match v with Some n => bool_decide (n ≠ 0) | None => false end.

Definition truthy_string (v : option string) : bool :=
  match v with Some s => bool_decide (s ≠ "") | None => false end.

Definition formatFlickrError (err : caught) : string :=
  if truthy_number (code_of err)
     && truthy_string (code_of err ≫= (FLICKR_ERROR_MESSAGES !!.))
  then default "" (code_of err ≫= (FLICKR_ERROR_MESSAGES !!.))
  else if truthy_string (message_of err)
  then "Flickr API error: " +:+ default "" (message_of err)
  else "Flickr API error: " +:+ String_of err.

Record FlickrCredentials := mkFlickrCredentials {
  consumerKey : string;
  consumerSecret : string;
  oauthToken : string;
  oauthTokenSecret : string;
}.

(** A thrown [Error] with its message. *)
Inductive exn := Error (message : string).

Definition exn_message (e : exn) : string :=
  match e with Error m => m end.

(** [missing.push(name)] when the variable is unset or empty. *)
Definition push_if_missing (v : option string) (name : string)
    (missing : list string) : list string :=
  if truthy_string v then missing else missing ++ [name].

(** [loadCredentials()], with [env] for [process.env]. *)
Definition loadCredentials (env : gmap string string)
    : exn + FlickrCredentials :=
  let consumerKey := env !! "FLICKR_CONSUMER_KEY" in
  let consumerSecret := env !! "FLICKR_CONSUMER_SECRET" in
  let oauthToken := env !! "FLICKR_OAUTH_TOKEN" in
  let oauthTokenSecret := env !! "FLICKR_OAUTH_TOKEN_SECRET" in
  let missing := [] in
  let missing := push_if_missing consumerKey "FLICKR_CONSUMER_KEY" missing in
  let missing :=
    push_if_missing consumerSecret "FLICKR_CONSUMER_SECRET" missing in
  let missing := push_if_missing oauthToken "FLICKR_OAUTH_TOKEN" missing in
  let missing :=
    push_if_missing oauthTokenSecret "FLICKR_OAUTH_TOKEN_SECRET" missing in
  if decide (0 < length missing)%nat then
    inl (Error ("Missing required environment variables: " +:+
                String.concat ", " missing +:+ ". " +:+
                "Run " +:+ String "034" "npm run setup-auth" +:+
                String "034" " to configure credentials, or set them in your .env file."))
  else
    inr {| consumerKey := default "" consumerKey;
           consumerSecret := default "" consumerSecret;
           oauthToken := default "" oauthToken;
           oauthTokenSecret := default "" oauthTokenSecret |}.

(** The answer of Flickr to [flickr.test.login] for a client: what
    [`${err.message ?? err}`] makes of the error it threw, or the id and
    the name of the user. *)
Definition login := FlickrCredentials → string + (string * string).

(** [validateCredentials(flickr)], the client known by the credentials it
    was made from. *)
Definition validateCredentials (remote : login) (flickr : FlickrCredentials)
    : exn + (string * string) :=
  match remote flickr with
  | inr user => inr user
  | inl m =>
      inl (Error ("Flickr authentication failed: " +:+ m +:+ ". " +:+
                  "Check your credentials or re-run " +:+
                  String "034" "npm run setup-auth" +:+ String "034" "."))
  end.

(** The module variables [_flickr] and [_userId], [None] while [null]. *)
Record Client := mkClient {
  _flickr : option FlickrCredentials;
  _userId : option string;
}.

Definition initFlickrClient (env : gmap string string) (remote : login)
    (c : Client) : (exn + (string * string)) * Client :=
  match loadCredentials env with
  | inl e => (inl e, c)
  | inr creds =>
      let c1 := {| _flickr := Some creds; _userId := _userId c |} in
      match validateCredentials remote creds with
      | inl e => (inl e, c1)
      | inr (userId, username) =>
          (inr (userId, username),
           {| _flickr := _flickr c1; _userId := Some userId |})
      end
  end.

Definition not_initialized : exn :=
  Error "Flickr client not initialized. Call initFlickrClient() first.".

Definition getFlickr (c : Client) : exn + FlickrCredentials :=
  match _flickr c with
  | Some flickr => inr flickr
  | None => inl not_initialized
  end.

Definition getUserId (c : Client) : exn + string :=
  if truthy_string (_userId c) then inr (default "" (_userId c))
  else inl not_initialized.

End FlickrClient.

(** ** The entry point: [main] of [index.ts] *)

Module Server.
Import NotesDb FlickrClient.

(** The process: the client variables, the store and its file, and the
    lines written to the standard error. *)
Record Process := mkProcess {
  client : Client;
  world : World;
  stderr : list string;
}.

Definition console_error (line : string) (p : Process) : Process :=
  {| client := client p; world := world p; stderr := stderr p ++ [line] |}.

(** How [main] ends: [process.exit(code)], or the server connected with
    its tools registered. *)
Inductive startup :=
| Exited (code : Z) (p : Process)
| Running (p : Process).

(** [main()], with [transport] what [server.connect] throws, if it does
    (as the console prints it). *)
Definition main (env : gmap string string) (remote : login)
    (transport : option string) (p : Process) : startup :=
  match initFlickrClient env remote (client p) with
  | (inl e, c') =>
      Exited 1
        (console_error ("Flickr MCP Server startup failed: " +:+ exn_message e)
           {| client := c'; world := world p; stderr := stderr p |})
  | (inr (userId, username), c') =>
      let p1 :=
        console_error
          ("Flickr MCP Server: authenticated as " +:+ username +:+
           " (" +:+ userId +:+ ")")
          {| client := c'; world := world p; stderr := stderr p |} in
      match initNotesDb (world p1) with
      | (inl e, w') =>
          Exited 1
            (console_error
               ("Flickr MCP Server startup failed: " +:+ NotesDb.message e)
               {| client := client p1; world := w'; stderr := stderr p1 |})
      | (inr _, w') =>
          let p2 :=
            console_error "Flickr MCP Server: notes database initialized"
              {| client := client p1; world := w'; stderr := stderr p1 |} in
          match transport with
          | Some err =>
              Exited 1 (console_error ("Fatal error: " +:+ err) p2)
          | None =>
              Running (console_error "Flickr MCP Server running on stdio" p2)
          end
      end
  end.

(** A process that has just started. *)
Definition started (file : option NotesData) : Process :=
  {| client := {| _flickr := None; _userId := None |};
     world := {| data := None; file := file |};
     stderr := [] |}.

End Server.

(** ** The vocabulary of the properties *)

Module NotesSpec.
Import NotesDb.

(** An initialized store whose file holds what the variable holds, as it
    is after [initNotesDb] and after every [save]. *)
Definition ready (d : NotesData) : World :=
  {| data := Some d; file := Some d |}.

(** [a] is stamped no earlier than [b]: the order "most recent first" of a
    list is [a] before [b] only if [not_older a b]. *)
Definition not_older (a b : NoteRow) : Prop :=
  String.le (created_at b) (created_at a).

(** The calls of a client paired with what they gave back. *)
Definition history (cs : list call) (w : World) : list (call * answer) :=
  zip cs (run cs w).1.

(** [r] was added with the pair [(t, i)] and no later call deleted its
    id. *)
Definition added_and_kept (t : EntityType) (i : string)
    (h : list (call * answer)) (r : NoteRow) : Prop :=
  ∃ h1 h2 n now,
    h = h1 ++ (Add t i n now, Row r) :: h2 ∧
    Forall (λ x, x.1 ≠ Delete (id r)) h2.

(** The ids [addNote] handed out, in the order of the calls. *)
Definition assigned_ids (answers : list answer) : list Z :=
  omap (λ a, match a with Row r => Some (id r) | _ => None end) answers.

(** Every stored id was handed out before, and only once. *)
Definition well_formed (d : NotesData) : Prop :=
  Forall (λ r, id r < next_id d) (notes d) ∧ NoDup (id <$> notes d).

(** What a call answers on an initialized and saved store [d], and the
    store it leaves: the cases of the functions of [NotesDb], for case
    analysis in the proofs about sequences of calls. *)
Inductive step (d : NotesData) : call → answer → NotesData → Prop :=
| step_Init : step d Init Done d
| step_Add t i n now :
    step d (Add t i n now)
      (Row (mkNoteRow (next_id d) t i n (timestamp now)))
      {| next_id := next_id d + 1;
         notes := notes d ++ [mkNoteRow (next_id d) t i n (timestamp now)] |}
| step_Get t i l : step d (Get t i) (Rows l) d
| step_Search q l : step d (Search q) (Rows l) d
| step_Delete_missing nid :
    Forall (λ r, id r ≠ nid) (notes d) →
    step d (Delete nid) (Flag false) d
| step_Delete_found nid l1 r l2 :
    notes d = l1 ++ r :: l2 →
    Forall (λ x, id x ≠ nid) l1 →
    id r = nid →
    step d (Delete nid) (Flag true)
      {| next_id := next_id d; notes := l1 ++ l2 |}.

(** A time value of the years 0 to 9999, from the first millisecond of
    0000-01-01 to the last of 9999-12-31: the times [toISOString] prints
    with a year of four digits. *)
Definition four_digit_year (now : Z) : Prop :=
  -62167219200000 ≤ now < 253402300800000.

Definition is_digit (c : ascii) : bool :=
  ((48 <=? nat_of_ascii c) && (nat_of_ascii c <=? 57))%nat.

(** [s] has the shape [pat], in which [d] stands for a digit and every
    other character for itself. *)
Fixpoint has_shape (pat s : string) : bool :=
  match pat, s with
  | EmptyString, EmptyString => true
  | String p pat', String c s' =>
      (if decide (p = "d"%char) then is_digit c else bool_decide (p = c))
      && has_shape pat' s'
  | _, _ => false
  end.

(** The integers on which the arithmetic and the printing of the code's
    numbers are those of the integers: [Number.isSafeInteger]. *)
Definition MAX_SAFE_INTEGER : Z := 9007199254740991.

Definition safe_integer (n : Z) : Prop :=
  - MAX_SAFE_INTEGER ≤ n ≤ MAX_SAFE_INTEGER.

(** A note stamped the way [addNote] stamps in the years 0 to 9999; on
    such stamps every collation orders as the code units do. *)
Definition stamped (r : NoteRow) : Prop :=
  has_shape "dddd-dd-dd dd:dd:dd" (created_at r) = true.

(** A note whose text is ASCII. *)
Definition ascii_note (r : NoteRow) : Prop :=
  JsString.ascii_text (note r) = true.

End NotesSpec.

(** ** The vocabulary of the properties of the start *)

Module ServerSpec.
Import NotesDb NoteTools FlickrClient.

(** The variables [loadCredentials] reads, in the order it looks at
    them. *)
Definition credential_names : list string :=
  ["FLICKR_CONSUMER_KEY"; "FLICKR_CONSUMER_SECRET";
   "FLICKR_OAUTH_TOKEN"; "FLICKR_OAUTH_TOKEN_SECRET"].

(** A variable of the environment is set: it has a value, and the value
    is not the empty string. *)
Definition is_set (env : gmap string string) (name : string) : Prop :=
  ∃ v, env !! name = Some v ∧ v ≠ "".

Global Instance is_set_dec env name : Decision (is_set env name).
Proof.
  unfold is_set. destruct (env !! name) as [v|].
  - destruct (decide (v = "")) as [->|Hv].
    + right. intros (? & [= <-] & ?). done.
    + left. by exists v.
  - right. by intros (? & ? & ?).
Defined.

(** The message of the error [loadCredentials] throws for the variables
    [missing]. *)
Definition missing_variables (missing : list string) : string :=
  "Missing required environment variables: " +:+
  String.concat ", " missing +:+ ". " +:+
  "Run " +:+ String "034" "npm run setup-auth" +:+
  String "034" " to configure credentials, or set them in your .env file.".

End ServerSpec.

(** ** A scenario: two notes on one photo *)

Module Scenario.
Import NotesDb NoteTools.

(** The times of the two additions, a second apart. *)
Definition t_focus : Z := 1793709296789.
Definition t_submit : Z := 1793709297789.

Definition calls : list call :=
  [Add photo "123" "check focus" t_focus;
   Add photo "123" "submit to group X" t_submit].

Definition focus : NoteRow :=
  {| id := 1; entity_type := photo; entity_id := "123";
     note := "check focus"; created_at := "2026-11-03 12:34:56" |}.

Definition submit : NoteRow :=
  {| id := 2; entity_type := photo; entity_id := "123";
     note := "submit to group X"; created_at := "2026-11-03 12:34:57" |}.

(** The store after the two additions. *)
Definition store : NotesData := {| next_id := 3; notes := [focus; submit] |}.

(** Arguments of a call of [flickr_add_note] with an empty note. *)
Definition empty_note_args : gmap string json :=
  <["entity_type" := JStr "photo"]>
    (<["entity_id" := JStr "123"]> {["note" := JStr ""]}).

Definition delete_args (n : Z) : gmap string json := {["note_id" := JNum n]}.

Definition add_args (t i n : string) : gmap string json :=
  <["entity_type" := JStr t]> (<["entity_id" := JStr i]> {["note" := JStr n]}).

Definition get_args (t i : string) : gmap string json :=
  <["entity_type" := JStr t]> {["entity_id" := JStr i]}.

Definition search_args (q : string) : gmap string json := {["query" := JStr q]}.

(** An environment with the four variables, one with the token left
    empty, and two answers of Flickr to the login. *)
Definition env_set : gmap string string :=
  <["FLICKR_CONSUMER_KEY" := "key"]>
    (<["FLICKR_CONSUMER_SECRET" := "secret"]>
       (<["FLICKR_OAUTH_TOKEN" := "token"]>
          {["FLICKR_OAUTH_TOKEN_SECRET" := "token-secret"]})).

Definition env_no_token : gmap string string :=
  <["FLICKR_OAUTH_TOKEN" := ""]> env_set.

Definition accepts : FlickrClient.login :=
  λ _, inr ("12345678@N00", "soctib").

Definition rejects : FlickrClient.login :=
  λ _, inl "Invalid auth token".

End Scenario.

(** * Properties *)

(** ** The stable sort *)

Section sort_facts.
Context {A : Type} (cmp : A → A → Z).
Import JsArray.

Lemma insert_sorted_Permutation x l : insert_sorted cmp x l ≡ₚ x :: l.
Proof.
  induction l as [|y l IH]; simpl; [done|].
  case_decide; [done|]. rewrite IH. apply Permutation_swap.
Qed.

Lemma sort_Permutation l : sort cmp l ≡ₚ l.
Proof.
  induction l as [|x l IH]; simpl; [done|].
  rewrite insert_sorted_Permutation. by f_equiv.
Qed.

Lemma sort_elem_of x l : x ∈ sort cmp l ↔ x ∈ l.
Proof. by rewrite sort_Permutation. Qed.

Lemma sort_length l : length (sort cmp l) = length l.
Proof. by rewrite sort_Permutation. Qed.

Lemma sort_NoDup l : NoDup l → NoDup (sort cmp l).
Proof. by rewrite sort_Permutation. Qed.

Lemma sort_nil : sort cmp [] = [].
Proof. done. Qed.

Section ordered.
Hypothesis cmp_total : ∀ x y, before cmp x y ∨ before cmp y x.

Lemma insert_sorted_HdRel z x l :
  before cmp z x → HdRel (before cmp) z l → HdRel (before cmp) z (insert_sorted cmp x l).
Proof.
  intros Hzx Hz. destruct l as [|y l]; simpl.
  - by constructor.
  - inversion_clear Hz. case_decide; by constructor.
Qed.

Lemma insert_sorted_Sorted x l :
  Sorted (before cmp) l → Sorted (before cmp) (insert_sorted cmp x l).
Proof.
  induction 1 as [|y l Hl IH Hy]; simpl.
  - by repeat constructor.
  - case_decide as Hxy.
    + by repeat constructor.
    + constructor; [done|]. apply insert_sorted_HdRel; [|done].
      destruct (cmp_total x y); [done|done].
Qed.

Lemma sort_Sorted l : Sorted (before cmp) (sort cmp l).
Proof.
  induction l as [|x l IH]; simpl; [constructor|].
  by apply insert_sorted_Sorted.
Qed.

Lemma sort_StronglySorted `{!Transitive (before cmp)} l :
  StronglySorted (before cmp) (sort cmp l).
Proof. apply Sorted_StronglySorted; [done|]. apply sort_Sorted. Qed.
End ordered.

(** Stability: the elements of a class that the comparator does not
    separate come out in the order they went in. *)
Section stable.
Context (P : A → Prop) `{!∀ x, Decision (P x)}.
Hypothesis cmp_class : ∀ x y, P x → P y → before cmp x y.

Lemma insert_sorted_filter x l :
  filter P (insert_sorted cmp x l) = filter P (x :: l).
Proof.
  induction l as [|y l IH]; simpl; [done|].
  case_decide as Hxy; [done|].
  rewrite filter_cons, IH, !filter_cons.
  destruct (decide (P y)) as [Hy|Hy]; [|done].
  destruct (decide (P x)) as [Hx|Hx]; [|done].
  destruct Hxy. by apply cmp_class.
Qed.

Lemma sort_filter l : filter P (sort cmp l) = filter P l.
Proof.
  induction l as [|x l IH]; simpl; [done|].
  rewrite insert_sorted_filter, !filter_cons. by rewrite IH.
Qed.
End stable.
(** The comparator decides the result: a sorted list with the same
    elements in which tied elements keep the order they had in [l] is
    [sort cmp l], whatever procedure made it. *)
Section unique.
Hypothesis cmp_total : ∀ x y, before cmp x y ∨ before cmp y x.
Context `{!Transitive (before cmp)}.

Lemma before_refl x : before cmp x x.
Proof. by destruct (cmp_total x x). Qed.

Lemma sorted_stable_eq l1 l2 :
  Sorted (before cmp) l1 → Sorted (before cmp) l2 →
  (∀ z, filter (tied cmp z) l1 = filter (tied cmp z) l2) →
  l1 = l2.
Proof.
  intros H1. revert l2. induction H1 as [|x t Ht IH Hx]; intros l2 H2 Hf.
  - destruct l2 as [|y s]; [done|]. specialize (Hf y).
    rewrite filter_cons_True in Hf by (split; apply before_refl). done.
  - assert (Forall (before cmp x) t) as Hxt.
    { assert (StronglySorted (before cmp) (x :: t)) as Hss
        by (apply Sorted_StronglySorted; [done|by constructor]).
      by inversion Hss. }
    destruct l2 as [|y s].
    { specialize (Hf x).
      rewrite filter_cons_True in Hf by (split; apply before_refl). done. }
    assert (Forall (before cmp y) s) as Hys.
    { apply Sorted_StronglySorted in H2; [|done]. by inversion H2. }
    assert (Sorted (before cmp) s) as Hs by (by inversion H2).
    assert (before cmp y x) as Hyx.
    { assert (x ∈ y :: s) as [->|Hin]%elem_of_cons.
      - eapply list_elem_of_filter. rewrite <-(Hf x).
        rewrite filter_cons_True by (split; apply before_refl). by left.
      - apply before_refl.
      - rewrite Forall_forall in Hys. by apply Hys. }
    assert (before cmp x y) as Hxy.
    { assert (y ∈ x :: t) as [->|Hin]%elem_of_cons.
      - eapply list_elem_of_filter. rewrite (Hf y).
        rewrite filter_cons_True by (split; apply before_refl). by left.
      - apply before_refl.
      - rewrite Forall_forall in Hxt. by apply Hxt. }
    pose proof (Hf x) as Hfx.
    rewrite !filter_cons_True in Hfx by (split; (done || apply before_refl)).
    injection Hfx as <- _. f_equal. apply IH; [done|].
    intros z. specialize (Hf z). rewrite !filter_cons in Hf.
    destruct (decide (tied cmp z x)); congruence.
Qed.

Lemma sort_unique l l' :
  Sorted (before cmp) l' →
  (∀ z, filter (tied cmp z) l' = filter (tied cmp z) l) →
  l' = sort cmp l.
Proof.
  intros Hl' Hf. apply sorted_stable_eq; [done|by apply sort_Sorted|].
  intros z. rewrite Hf. symmetry. apply sort_filter.
  intros x y [_ Hxz] [Hzy _]. by etrans.
Qed.
End unique.
End sort_facts.

(** ** Strings *)

Section string_facts.
Import JsString.

Lemma app_String c a b : String c a +:+ b = String c (a +:+ b).
Proof. reflexivity. Qed.

Lemma app_empty b : "" +:+ b = b.
Proof. reflexivity. Qed.

Lemma prefix_app p s : String.prefix p s = true ↔ ∃ post, s = p +:+ post.
Proof.
  revert s. induction p as [|c p IH]; intros s; simpl.
  - split; [|by destruct s]. intros _. by exists s.
  - destruct s as [|c' s]; simpl.
    + split; [done|]. by intros [? ?].
    + setoid_rewrite app_String. destruct (ascii_dec c c') as [->|Hc].
      * rewrite IH. split; intros [post Hpost]; exists post; congruence.
      * split; [done|]. intros [post Hpost]. congruence.
Qed.

Lemma includes_app s pat :
  includes s pat = true ↔ ∃ pre post, s = pre +:+ pat +:+ post.
Proof.
  induction s as [|c s IH].
  - change (includes "" pat) with (String.prefix pat "" || false).
    rewrite orb_false_r, prefix_app. split.
    + intros [post Hpost]. by exists "", post.
    + intros ([|??] & post & Hpost); [by exists post|done].
  - change (includes (String c s) pat)
      with (String.prefix pat (String c s) || includes s pat).
    rewrite orb_true_iff, prefix_app, IH. split.
    + intros [[post Hpost]|(pre & post & Hpost)].
      * by exists "", post.
      * exists (String c pre), post. by rewrite app_String, Hpost.
    + intros ([|c' pre] & post & Hpost).
      * left. by exists post.
      * right. exists pre, post. rewrite app_String in Hpost. congruence.
Qed.



Lemma nat_of_ascii_inj a b : nat_of_ascii a = nat_of_ascii b → a = b.
Proof.
  intros H. apply (f_equal ascii_of_nat) in H.
  by rewrite !ascii_nat_embedding in H.
Qed.

Lemma nat_of_lower_char c :
  nat_of_ascii (lower_char c) =
  if ((65 <=? nat_of_ascii c) && (nat_of_ascii c <=? 90))%nat
  then (nat_of_ascii c + 32)%nat else nat_of_ascii c.
Proof.
  unfold lower_char. pose proof (nat_ascii_bounded c) as Hc.
  destruct (Nat.leb_spec 65 (nat_of_ascii c)),
           (Nat.leb_spec (nat_of_ascii c) 90); simpl; try done.
  rewrite nat_ascii_embedding; lia.
Qed.

Lemma lower_char_same a b : lower_char a = lower_char b ↔ same_letter a b.
Proof.
  unfold same_letter, is_capital. split.
  - intros H. apply (f_equal nat_of_ascii) in H.
    rewrite !nat_of_lower_char in H.
    destruct (decide (nat_of_ascii a = nat_of_ascii b)) as [Heq|Hne];
      [left; by apply nat_of_ascii_inj|right].
    destruct (Nat.leb_spec 65 (nat_of_ascii a)),
             (Nat.leb_spec (nat_of_ascii a) 90),
             (Nat.leb_spec 65 (nat_of_ascii b)),
             (Nat.leb_spec (nat_of_ascii b) 90); simpl in *; lia.
  - intros [->|H]; [done|]. apply nat_of_ascii_inj.
    rewrite !nat_of_lower_char.
    destruct (Nat.leb_spec 65 (nat_of_ascii a)),
             (Nat.leb_spec (nat_of_ascii a) 90),
             (Nat.leb_spec 65 (nat_of_ascii b)),
             (Nat.leb_spec (nat_of_ascii b) 90); simpl in *; lia.
Qed.

Lemma toLowerCase_same a b :
  toLowerCase a = toLowerCase b ↔ same_ignoring_case a b.
Proof.
  split.
  - revert b. induction a as [|x a IH]; intros [|y b] H; simplify_eq/=.
    + constructor.
    + constructor; [by apply lower_char_same|by apply IH].
  - induction 1 as [|x y a b Hxy _ IH]; [done|]. simpl.
    by rewrite (proj2 (lower_char_same x y) Hxy), IH.
Qed.


Lemma includes_empty s : includes s "" = true.
Proof. by destruct s. Qed.


Lemma localeCompare_le a b : localeCompare a b ≤ 0 ↔ String.le a b.
Proof.
  unfold localeCompare, String.le, String.leb.
  destruct (String.compare a b); simpl; intuition (done || lia).
Qed.

Lemma localeCompare_refl a : localeCompare a a = 0.
Proof.
  unfold localeCompare. pose proof (String.compare_antisym a a) as H.
  by destruct (String.compare a a).
Qed.
End string_facts.

(** ** The operations of the store on an initialized store *)

Section store_facts.
Import JsString JsArray NotesDb NotesSpec.

Lemma fresh_store_ready : fresh_store = ready {| next_id := 1; notes := [] |}.
Proof. reflexivity. Qed.

Lemma initNotesDb_file w doc :
  file w = Some doc → initNotesDb w = (inr (), ready doc).
Proof.
  intros H. run_monad. rewrite H. simpl. rewrite H. simpl. by rewrite H.
Qed.

Lemma initNotesDb_ready d : initNotesDb (ready d) = (inr (), ready d).
Proof. by apply initNotesDb_file. Qed.

Lemma initNotesDb_restart d : initNotesDb (restart (ready d)) = (inr (), ready d).
Proof. by apply initNotesDb_file. Qed.

Lemma addNote_initialized w d t i n now :
  data w = Some d →
  addNote t i n now w =
    (inr (mkNoteRow (next_id d) t i n (timestamp now)),
     ready {| next_id := next_id d + 1;
              notes := notes d ++ [mkNoteRow (next_id d) t i n (timestamp now)] |}).
Proof. intros H. run_monad. by rewrite H. Qed.

Lemma getNotes_initialized w d t i :
  data w = Some d →
  getNotes t i w =
    (inr (sort newest_first
            (filter (λ n, entity_type n = t ∧ entity_id n = i) (notes d))),
     w).
Proof. intros H. run_monad. by rewrite H. Qed.

Lemma searchNotes_initialized w d q :
  data w = Some d →
  searchNotes q w =
    (inr (take 50
            (sort newest_first
               (filter (λ n, includes (toLowerCase (note n)) (toLowerCase q))
                       (notes d)))),
     w).
Proof. intros H. run_monad. by rewrite H. Qed.

Lemma deleteNote_missing w d nid :
  data w = Some d →
  Forall (λ r, id r ≠ nid) (notes d) →
  deleteNote nid w = (inr false, w).
Proof.
  intros H Hnid. run_monad. rewrite H.
  by rewrite (proj2 (list_find_None _ _) Hnid).
Qed.

Lemma deleteNote_found w d nid l1 r l2 :
  data w = Some d →
  notes d = l1 ++ r :: l2 →
  Forall (λ x, id x ≠ nid) l1 →
  id r = nid →
  deleteNote nid w =
    (inr true, ready {| next_id := next_id d; notes := l1 ++ l2 |}).
Proof.
  intros H Hl Hl1 Hr. run_monad. rewrite H.
  assert (list_find (λ n, id n = nid) (notes d) = Some (length l1, r)) as ->.
  { apply list_find_Some. rewrite Hl. split_and!.
    - by rewrite list_lookup_middle.
    - done.
    - intros j y Hj Hlt. rewrite lookup_app_l in Hj by done.
      rewrite Forall_lookup in Hl1. eauto. }
  simpl. rewrite Hl. by rewrite delete_middle.
Qed.

(** Either way of [deleteNote]: the notes split at the first one with
    the id, or none has it. *)
Lemma find_id_split nid (l : list NoteRow) :
  Forall (λ r, id r ≠ nid) l ∨
  ∃ l1 r l2, l = l1 ++ r :: l2 ∧ Forall (λ x, id x ≠ nid) l1 ∧ id r = nid.
Proof.
  induction l as [|x l [IH|(l1 & r & l2 & -> & Hl1 & Hr)]].
  - by left.
  - destruct (decide (id x = nid)) as [Hx|Hx].
    + right. by exists [], x, l.
    + left. by constructor.
  - destruct (decide (id x = nid)) as [Hx|Hx].
    + right. by exists [], x, (l1 ++ r :: l2).
    + right. exists (x :: l1), r, l2. split_and!; [done| |done].
      by constructor.
Qed.
End store_facts.

(** ** The order of the results *)

Section order_facts.
Import JsString JsArray NotesDb NotesSpec.

Lemma before_newest_first a b : before newest_first a b ↔ not_older a b.
Proof. apply localeCompare_le. Qed.

Lemma newest_first_total a b :
  before newest_first a b ∨ before newest_first b a.
Proof.
  rewrite !before_newest_first. unfold not_older.
  destruct (total String.le (created_at a) (created_at b)); auto.
Qed.

Lemma newest_first_trans : Transitive (before newest_first).
Proof.
  intros a b c. rewrite !before_newest_first. unfold not_older.
  intros ??. by etrans.
Qed.

Lemma StronglySorted_weaken {A} (R1 R2 : relation A) l :
  (∀ x y, R1 x y → R2 x y) → StronglySorted R1 l → StronglySorted R2 l.
Proof.
  intros HR. induction 1 as [|x l Hl IH Hx]; constructor; [done|].
  eapply Forall_impl; [done|]. auto.
Qed.

Lemma sort_newest_first l :
  StronglySorted not_older (sort newest_first l).
Proof.
  apply StronglySorted_weaken with (before newest_first).
  - intros a b. by rewrite before_newest_first.
  - apply sort_StronglySorted; [|apply newest_first_trans].
    apply newest_first_total.
Qed.

(** The list [getNotes] returns is the one descending arrangement of the
    notes in which notes of one timestamp keep their order. *)
Lemma sort_newest_first_unique l l' :
  Sorted (before newest_first) l' →
  (∀ z, filter (tied newest_first z) l' = filter (tied newest_first z) l) →
  l' = sort newest_first l.
Proof.
  apply sort_unique; [apply newest_first_total|apply newest_first_trans].
Qed.

Lemma filter_all {A} (P : A → Prop) `{!∀ x, Decision (P x)} l :
  Forall P l → filter P l = l.
Proof.
  induction 1 as [|x l Hx _ IH]; [done|].
  by rewrite filter_cons_True, IH.
Qed.


End order_facts.

(** ** Sequences of calls *)

Section run_facts.
Import JsString JsArray NotesDb NotesSpec.

Lemma run_cons c cs w :
  run (c :: cs) w =
    ((perform c w).1 :: (run cs (perform c w).2).1,
     (run cs (perform c w).2).2).
Proof.
  simpl. destruct (perform c w) as [a w']. simpl.
  by destruct (run cs w') as [rest w''].
Qed.

Lemma run_app cs1 cs2 w :
  run (cs1 ++ cs2) w =
    ((run cs1 w).1 ++ (run cs2 (run cs1 w).2).1,
     (run cs2 (run cs1 w).2).2).
Proof.
  revert w. induction cs1 as [|c cs1 IH]; intros w.
  - simpl. by destruct (run cs2 w).
  - rewrite <-app_comm_cons, !run_cons, IH. done.
Qed.

Lemma run_length cs w : length (run cs w).1 = length cs.
Proof.
  revert w. induction cs as [|c cs IH]; intros w; [done|].
  rewrite run_cons. simpl. by rewrite IH.
Qed.

Lemma history_snoc cs c w :
  history (cs ++ [c]) w =
    history cs w ++ [(c, (perform c (run cs w).2).1)].
Proof.
  unfold history. rewrite run_app, run_cons. simpl.
  by rewrite zip_with_app by (by rewrite run_length).
Qed.

(** What each call does to an initialized and saved store. *)
Lemma perform_Init d : perform Init (ready d) = (Done, ready d).
Proof. unfold perform, answered. by rewrite initNotesDb_ready. Qed.

Lemma perform_Add t i n now d :
  perform (Add t i n now) (ready d) =
    (Row (mkNoteRow (next_id d) t i n (timestamp now)),
     ready {| next_id := next_id d + 1;
              notes := notes d ++ [mkNoteRow (next_id d) t i n (timestamp now)] |}).
Proof.
  unfold perform, answered. by rewrite (addNote_initialized _ d).
Qed.

Lemma perform_Get t i d :
  perform (Get t i) (ready d) =
    (Rows (sort newest_first
             (filter (λ n, entity_type n = t ∧ entity_id n = i) (notes d))),
     ready d).
Proof.
  unfold perform, answered. by rewrite (getNotes_initialized _ d).
Qed.

Lemma perform_Search q d :
  perform (Search q) (ready d) =
    (Rows (take 50
             (sort newest_first
                (filter (λ n, includes (toLowerCase (note n)) (toLowerCase q))
                        (notes d)))),
     ready d).
Proof.
  unfold perform, answered. by rewrite (searchNotes_initialized _ d).
Qed.

Lemma perform_Delete_missing nid d :
  Forall (λ r, id r ≠ nid) (notes d) →
  perform (Delete nid) (ready d) = (Flag false, ready d).
Proof.
  intros H. unfold perform, answered.
  by rewrite (deleteNote_missing _ d).
Qed.

Lemma perform_Delete_found nid d l1 r l2 :
  notes d = l1 ++ r :: l2 →
  Forall (λ x, id x ≠ nid) l1 →
  id r = nid →
  perform (Delete nid) (ready d) =
    (Flag true, ready {| next_id := next_id d; notes := l1 ++ l2 |}).
Proof.
  intros. unfold perform, answered.
  by rewrite (deleteNote_found _ d nid l1 r l2).
Qed.

Lemma perform_step c d :
  ∃ a d', perform c (ready d) = (a, ready d') ∧ step d c a d'.
Proof.
  destruct c as [|t i n now|t i|nid|q].
  - eexists _, _. split; [apply perform_Init|constructor].
  - eexists _, _. split; [apply perform_Add|constructor].
  - eexists _, _. split; [apply perform_Get|constructor].
  - destruct (find_id_split nid (notes d))
      as [H|(l1 & r & l2 & Hl & Hl1 & Hr)].
    + eexists _, _. split; [by apply perform_Delete_missing|by constructor].
    + eexists _, _. split; [by eapply perform_Delete_found|].
      by econstructor.
  - eexists _, _. split; [apply perform_Search|constructor].
Qed.

Lemma run_ready cs d : ∃ d', (run cs (ready d)).2 = ready d'.
Proof.
  revert d. induction cs as [|c cs IH]; intros d; [by exists d|].
  rewrite run_cons. simpl.
  destruct (perform_step c d) as (a & d' & -> & _). apply IH.
Qed.

Lemma step_well_formed d c a d' :
  step d c a d' → well_formed d → well_formed d' ∧ next_id d ≤ next_id d'.
Proof.
  unfold well_formed.
  destruct 1 as [|t i n now| | | |nid l1 r l2 Hl Hl1 Hr];
    intros [Hlt Hnd]; simpl; try (split; [done|lia]).
  - split; [|lia]. split.
    + rewrite Forall_app, Forall_singleton. split; [|simpl; lia].
      eapply Forall_impl; [done|]. simpl. lia.
    + rewrite fmap_app. simpl. apply NoDup_app. split_and!; [done| |].
      * intros x Hx ->%list_elem_of_singleton.
        apply list_elem_of_fmap in Hx as (r & Hr & Hin).
        rewrite Forall_forall in Hlt. specialize (Hlt _ Hin). lia.
      * apply NoDup_singleton.
  - split; [|lia]. rewrite Hl in Hlt, Hnd. split.
    + rewrite Forall_app, Forall_cons in Hlt. rewrite Forall_app. tauto.
    + rewrite fmap_app, fmap_cons in Hnd. rewrite fmap_app.
      apply NoDup_app in Hnd as (H1 & H2 & H3).
      apply NoDup_cons in H3 as [H3 H4]. apply NoDup_app. split_and!; [done| |done].
      intros x Hx Hx'. apply (H2 x Hx). by right.
Qed.
End run_facts.

(** ** The store against the history of the calls *)

Section history_facts.
Import JsString JsArray NotesDb NotesSpec.

Lemma added_and_kept_nil t i r : ¬ added_and_kept t i [] r.
Proof. intros (h1 & h2 & n & now & H & _). by destruct h1. Qed.

Lemma added_and_kept_snoc t i h c a r :
  added_and_kept t i (h ++ [(c, a)]) r ↔
    (added_and_kept t i h r ∧ c ≠ Delete (id r)) ∨
    (∃ n now, c = Add t i n now ∧ a = Row r).
Proof.
  split.
  - intros (h1 & h2 & n & now & Hh & Hh2).
    destruct h2 as [|y h2 _] using rev_ind.
    + apply app_inj_tail in Hh as [-> [= -> ->]]. right. eauto.
    + rewrite app_comm_cons, app_assoc in Hh.
      apply app_inj_tail in Hh as [-> <-].
      apply Forall_app in Hh2 as [Hh2 Hy%Forall_inv].
      left. split; [|exact Hy]. by exists h1, h2, n, now.
  - intros [[(h1 & h2 & n & now & -> & Hh2) Hc]|(n & now & -> & ->)].
    + exists h1, (h2 ++ [(c, a)]), n, now. split.
      * by rewrite <-app_assoc.
      * apply Forall_app. split; [done|]. by apply Forall_singleton.
    + by exists h, [], n, now.
Qed.

(** What holds of the store after any sequence of calls on a fresh one:
    it is initialized and saved, its ids are below [next_id] and
    distinct, every note a call returned carries the pair it was added
    with and an id below [next_id], and the stored notes are those added
    and not deleted since. *)
Lemma store_tracks_history cs :
  ∃ d, (run cs fresh_store).2 = ready d ∧ well_formed d ∧
    Forall (λ x, ∀ r, x.2 = Row r →
              id r < next_id d ∧
              ∃ n now, x.1 = Add (entity_type r) (entity_id r) n now)
           (history cs fresh_store) ∧
    ∀ r, r ∈ notes d ↔
         added_and_kept (entity_type r) (entity_id r) (history cs fresh_store) r.
Proof.
  induction cs as [|c cs (d & Hw & Hwf & Hrows & Hin)] using rev_ind.
  - exists {| next_id := 1; notes := [] |}. split_and!.
    + done.
    + split; [constructor|]. simpl. constructor.
    + constructor.
    + intros r. split; [by intros ?%elem_of_nil|].
      by intros ?%added_and_kept_nil.
  - destruct (perform_step c d) as (a & d' & Hp & Hstep).
    destruct (step_well_formed _ _ _ _ Hstep Hwf) as [Hwf' Hle].
    exists d'. rewrite run_app, history_snoc, Hw, run_cons, Hp. simpl.
    split_and!; [done|done| |].
    + apply Forall_app. split.
      * eapply Forall_impl; [exact Hrows|]. simpl.
        intros x Hx r Hr. destruct (Hx r Hr) as [? ?]. split; [lia|done].
      * apply Forall_singleton. simpl. intros r ->.
        inversion Hstep; subst; simpl. split; [lia|eauto].
    + intros r. rewrite added_and_kept_snoc, <-Hin.
      destruct Hwf as [Hlt Hnd].
      inversion Hstep as [|t i n now| | |nid Hnid|nid l1 r0 l2 Hl Hl1 Hr0];
        subst; simpl.
      * split; [by left|]. by intros [[? _]|(? & ? & ? & ?)].
      * rewrite elem_of_app, list_elem_of_singleton. split.
        -- intros [?| ->]; [by left|]. right. simpl. eauto.
        -- intros [[? _]|(n' & now' & [= -> -> -> ->] & [= <-])]; [by left|].
           right. by destruct r.
      * split; [by left|]. by intros [[? _]|(? & ? & ? & ?)].
      * split; [by left|]. by intros [[? _]|(? & ? & ? & ?)].
      * split.
        -- intros Hr. left. split; [done|]. intros [= ->].
           rewrite Forall_forall in Hnid. by apply (Hnid r).
        -- by intros [[? _]|(? & ? & ? & ?)].
      * rewrite Hl in Hnd |- *.
        rewrite fmap_app, fmap_cons in Hnd.
        apply NoDup_app in Hnd as (_ & H2 & [H3 _]%NoDup_cons).
        rewrite !elem_of_app, elem_of_cons. split.
        -- intros Hr. left. split; [tauto|]. intros [= Heq].
           destruct Hr as [Hr|Hr].
           ++ apply (H2 (id r)); [by apply list_elem_of_fmap_2|].
              rewrite Heq. by left.
           ++ apply H3. rewrite Heq. by apply list_elem_of_fmap_2.
        -- intros [[Hr Hc]|(? & ? & ? & ?)]; [|done].
           destruct Hr as [?|[->|?]]; [tauto| |tauto]. by destruct Hc.
Qed.

Lemma history_call cs w c a : (c, a) ∈ history cs w → c ∈ cs.
Proof.
  unfold history. intros H.
  apply list_elem_of_lookup in H as [k Hk].
  apply lookup_zip_with_Some in Hk as (c' & a' & [= <- <-] & Hc & _).
  by eapply list_elem_of_lookup_2.
Qed.
End history_facts.

(** ** The properties of the store *)

Section claims.
Import JsString JsDate JsArray NotesDb NotesSpec NoteTools.

(** C1.  After any sequence of calls on a freshly initialized store,
    [getNotes t i] does not throw and returns the notes that were added
    with the pair [(t, i)] and whose id no later call deleted: exactly
    those, each once, in descending order of [created_at]; when no note
    was ever added with the pair the result is the empty list. *)
Theorem getNotes_added_minus_deleted cs t i :
  ∃ l, getNotes t i (run cs fresh_store).2 = (inr l, (run cs fresh_store).2) ∧
    (∀ r, r ∈ l ↔ added_and_kept t i (history cs fresh_store) r) ∧
    NoDup l ∧
    StronglySorted not_older l ∧
    ((∀ n now, Add t i n now ∉ cs) → l = []).
Proof.
  destruct (store_tracks_history cs) as (d & Hw & [Hlt Hnd] & Hrows & Hin).
  rewrite Hw. eexists. split; [by apply (getNotes_initialized _ d)|].
  assert (∀ r, r ∈ sort newest_first
                 (filter (λ n, entity_type n = t ∧ entity_id n = i) (notes d))
               ↔ added_and_kept t i (history cs fresh_store) r) as Hiff.
  { intros r. rewrite sort_elem_of, list_elem_of_filter, Hin. split.
    - by intros [[<- <-] ?].
    - intros Hr. assert (entity_type r = t ∧ entity_id r = i) as [<- <-]; [|done].
      destruct Hr as (h1 & h2 & n & now & Hh & _).
      rewrite Forall_forall in Hrows.
      destruct (Hrows (Add t i n now, Row r)) with (r := r)
        as (_ & n' & now' & [= -> ->]); [|done|done].
      rewrite Hh. apply elem_of_app. right. by left. }
  split_and!.
  - done.
  - apply sort_NoDup, NoDup_filter. by eapply NoDup_fmap_1.
  - apply sort_newest_first.
  - intros Hnone.
    destruct (sort _ _) as [|r l] eqn:Hl; [done|]. exfalso.
    destruct (proj1 (Hiff r)) as (h1 & h2 & n & now & Hh & _); [by left|].
    apply (Hnone n now), (history_call cs fresh_store _ (Row r)).
    rewrite Hh. apply elem_of_app. right. by left.
Qed.

Lemma step_next_id d c a d' :
  step d c a d' →
  (∃ r, a = Row r ∧ id r = next_id d ∧ next_id d' = next_id d + 1) ∨
  ((∀ r, a ≠ Row r) ∧ next_id d' = next_id d).
Proof. destruct 1; [right|left|right..]; eauto. Qed.

Lemma assigned_ids_from cs d :
  ∃ d', (run cs (ready d)).2 = ready d' ∧ next_id d ≤ next_id d' ∧
    Forall (λ k, next_id d ≤ k < next_id d')
           (assigned_ids (run cs (ready d)).1) ∧
    StronglySorted Z.lt (assigned_ids (run cs (ready d)).1).
Proof.
  revert d. induction cs as [|c cs IH]; intros d.
  - exists d. split_and!; [done|done|constructor|constructor].
  - destruct (perform_step c d) as (a & d1 & Hp & Hstep).
    destruct (IH d1) as (d' & Hw & Hle & Hids & Hsorted).
    exists d'. rewrite run_cons, Hp. simpl. split; [done|].
    unfold assigned_ids in *. simpl.
    destruct (step_next_id _ _ _ _ Hstep)
      as [(r & -> & Hr & Hn)|[Ha Hn]]; rewrite Hn in *.
    + split; [lia|]. split.
      * constructor; [lia|]. eapply Forall_impl; [done|]. simpl. lia.
      * constructor; [done|]. eapply Forall_impl; [done|]. simpl. lia.
    + destruct a; try done. by destruct (Ha r).
Qed.

(** C2.  The ids of the notes [addNote] returns in a sequence of calls on
    a freshly initialized store are strictly increasing in the order of
    the calls, whatever calls (deletions included) lie between them: each
    is greater than every id assigned before it, so none is assigned
    twice. *)
Theorem addNote_ids_strictly_increasing cs :
  StronglySorted Z.lt (assigned_ids (run cs fresh_store).1) ∧
  NoDup (assigned_ids (run cs fresh_store).1).
Proof.
  rewrite fresh_store_ready.
  destruct (assigned_ids_from cs {| next_id := 1; notes := [] |})
    as (d' & _ & _ & _ & Hsorted).
  split; [done|].
  induction Hsorted as [|k l _ IH Hk]; constructor; [|done].
  intros Hin. rewrite Forall_forall in Hk. specialize (Hk _ Hin). lia.
Qed.


Lemma ready_inj d d' : ready d = ready d' → d = d'.
Proof. by intros [= ->]. Qed.

Lemma step_keeps r d c a d' :
  step d c a d' → r ∈ notes d → c ≠ Delete (id r) → r ∈ notes d'.
Proof.
  destruct 1 as [|t i n now| | | |nid l1 r0 l2 Hl Hl1 Hr0];
    intros Hr Hc; simpl; try done.
  - apply elem_of_app. by left.
  - rewrite Hl in Hr. rewrite !elem_of_app, elem_of_cons in *.
    destruct Hr as [?|[->|?]]; [tauto| |tauto]. by rewrite Hr0 in Hc.
Qed.

Lemma run_keeps cs d r :
  r ∈ notes d → Forall (λ c, c ≠ Delete (id r)) cs →
  ∃ d', (run cs (ready d)).2 = ready d' ∧ r ∈ notes d'.
Proof.
  intros Hr Hcs. revert d Hr.
  induction Hcs as [|c cs Hc _ IH]; intros d Hr; [by exists d|].
  destruct (perform_step c d) as (a & d1 & Hp & Hstep).
  rewrite run_cons, Hp. simpl. apply IH. by eapply step_keeps.
Qed.

Lemma run_well_formed cs d :
  well_formed d →
  ∃ d', (run cs (ready d)).2 = ready d' ∧ well_formed d' ∧
        next_id d ≤ next_id d'.
Proof.
  revert d. induction cs as [|c cs IH]; intros d Hwf.
  - exists d. split_and!; [done|done|lia].
  - destruct (perform_step c d) as (a & d1 & Hp & Hstep).
    destruct (step_well_formed _ _ _ _ Hstep Hwf) as [Hwf1 Hle1].
    destruct (IH d1 Hwf1) as (d' & Hw & Hwf' & Hle).
    exists d'. rewrite run_cons, Hp. split_and!; [done|done|lia].
Qed.

Lemma step_gone nid d c a d' :
  step d c a d' →
  nid < next_id d → Forall (λ x, id x ≠ nid) (notes d) →
  nid < next_id d' ∧ Forall (λ x, id x ≠ nid) (notes d').
Proof.
  destruct 1 as [|t i n now| | | |nid' l1 r0 l2 Hl Hl1 Hr0];
    intros Hlt Hgone; simpl; try done.
  - split; [lia|]. apply Forall_app. split; [done|].
    apply Forall_singleton. simpl. lia.
  - split; [done|]. rewrite Hl in Hgone.
    rewrite Forall_app, Forall_cons in Hgone. rewrite Forall_app. tauto.
Qed.

Lemma run_gone cs d nid :
  nid < next_id d → Forall (λ x, id x ≠ nid) (notes d) →
  ∃ d', (run cs (ready d)).2 = ready d' ∧
        nid < next_id d' ∧ Forall (λ x, id x ≠ nid) (notes d').
Proof.
  revert d. induction cs as [|c cs IH]; intros d Hlt Hgone; [by exists d|].
  destruct (perform_step c d) as (a & d1 & Hp & Hstep).
  destruct (step_gone _ _ _ _ _ Hstep Hlt Hgone) as [Hlt1 Hgone1].
  rewrite run_cons, Hp. by apply IH.
Qed.

(** C4.  On an initialized store [deleteNote id] never throws: when no
    stored note has the id it returns [false] and leaves the variable and
    the file as they are; when one has, it returns [true] and the first
    note with the id is gone from the store.  And after [addNote] has
    returned a note, in a sequence of calls on a freshly initialized
    store, the first [deleteNote] with the id of that note returns
    [true], and any [deleteNote] with that id at any later point returns
    [false] and changes nothing. *)
Theorem deleteNote_true_once_then_false :
  (∀ w d nid, data w = Some d →
     (Forall (λ r, id r ≠ nid) (notes d) ∧
      deleteNote nid w = (inr false, w)) ∨
     (∃ l1 r l2,
        notes d = l1 ++ r :: l2 ∧ id r = nid ∧
        Forall (λ x, id x ≠ nid) l1 ∧
        deleteNote nid w =
          (inr true, ready {| next_id := next_id d; notes := l1 ++ l2 |}))) ∧
  (∀ cs1 cs2 cs3 t i n now r w2,
     addNote t i n now (run cs1 fresh_store).2 = (inr r, w2) →
     Forall (λ c, c ≠ Delete (id r)) cs2 →
     ∃ w4,
       deleteNote (id r) (run cs2 w2).2 = (inr true, w4) ∧
       deleteNote (id r) (run cs3 w4).2 = (inr false, (run cs3 w4).2)).
Proof.
  split.
  - intros w d nid Hd.
    destruct (find_id_split nid (notes d))
      as [H|(l1 & r & l2 & Hl & Hl1 & Hr)].
    + left. split; [done|]. by apply (deleteNote_missing _ d).
    + right. exists l1, r, l2. split_and!; [done..|].
      by apply (deleteNote_found _ d nid l1 r l2).
  - intros cs1 cs2 cs3 t i n now r w2 Hadd Hcs2.
    destruct (store_tracks_history cs1) as (d1 & Hw1 & Hwf1 & _).
    rewrite Hw1, (addNote_initialized _ d1) in Hadd by done.
    injection Hadd as <- <-.
    set (r := mkNoteRow (next_id d1) t i n (timestamp now)) in *.
    set (d2 := {| next_id := next_id d1 + 1; notes := notes d1 ++ [r] |}).
    assert (step d1 (Add t i n now) (Row r) d2) as Hstep by constructor.
    destruct (step_well_formed _ _ _ _ Hstep Hwf1) as [Hwf2 _].
    assert (r ∈ notes d2) as Hr2.
    { apply elem_of_app. right. by left. }
    destruct (run_keeps cs2 d2 r Hr2 Hcs2) as (d3 & Hw3 & Hr3).
    destruct (run_well_formed cs2 d2 Hwf2) as (d3' & Hw3' & Hwf3 & Hle3).
    rewrite Hw3 in Hw3'. apply ready_inj in Hw3' as <-.
    rewrite Hw3.
    destruct (find_id_split (id r) (notes d3))
      as [H|(l1 & r0 & l2 & Hl & Hl1 & Hr0)].
    { rewrite Forall_forall in H. by destruct (H r Hr3). }
    eexists. split; [by apply (deleteNote_found _ d3 _ l1 r0 l2)|].
    destruct Hwf3 as [Hlt3 Hnd3].
    destruct (run_gone cs3 {| next_id := next_id d3; notes := l1 ++ l2 |} (id r))
      as (d5 & Hw5 & _ & Hgone5).
    + simpl in *. lia.
    + simpl. rewrite Hl in Hnd3. rewrite fmap_app, fmap_cons in Hnd3.
      apply NoDup_app in Hnd3 as (_ & H2 & [H3 _]%NoDup_cons).
      apply Forall_app. split; [done|].
      apply Forall_forall. intros x Hx Heq. apply H3.
      assert (id r0 = id x) as -> by (by rewrite Hr0, Heq).
      by apply list_elem_of_fmap_2.
    + rewrite Hw5. by apply (deleteNote_missing _ d5).
Qed.

(** C5.  A call of the tool [flickr_add_note] whose [note] is the empty
    string, or whose [entity_type] is not one of the strings [photo],
    [album] and [group], is refused as invalid by the schema of the tool;
    the handler, and with it [addNote] and [save], is not run: the
    variable and the file are what they were. *)
Theorem flickr_add_note_rejects_invalid args now w :
  args !! "note" = Some (JStr "") ∨
  (∀ t, args !! "entity_type" ≠ Some (JStr (entity_type_name t))) →
  flickr_add_note args now w = (InvalidParams, w).
Proof.
  intros H. unfold flickr_add_note.
  assert (add_note_schema args = None) as ->; [|done].
  unfold add_note_schema. destruct H as [Hnote|Htype].
  - destruct (args !! "entity_type" ≫= z_entity_type); [|done]. simpl.
    destruct (args !! "entity_id" ≫= z_string); [|done]. simpl.
    by rewrite Hnote.
  - assert (args !! "entity_type" ≫= z_entity_type = None) as ->; [|done].
    destruct (args !! "entity_type") as [[| | |s]|]; try done. simpl.
    repeat case_decide; subst; try done.
    + by destruct (Htype photo).
    + by destruct (Htype album).
    + by destruct (Htype group).
Qed.

(** The validation is the tool's: [addNote] itself takes any text. *)
Lemma addNote_takes_empty_text t i now d :
  addNote t i "" now (ready d) =
    (inr (mkNoteRow (next_id d) t i "" (timestamp now)),
     ready {| next_id := next_id d + 1;
              notes := notes d ++ [mkNoteRow (next_id d) t i "" (timestamp now)] |}).
Proof. by apply addNote_initialized. Qed.

(** C6.  After [addNote] has returned a note on an initialized store, a
    new process started on the file the old one left initializes without
    error to the very same data, and [getNotes] with the pair of the note
    returns there what it returned before the restart, the note itself
    (same id, same text, same timestamp) included. *)
Theorem addNote_survives_restart w d t i n now :
  data w = Some d →
  ∃ r w1 w2 l,
    addNote t i n now w = (inr r, w1) ∧
    initNotesDb (restart w1) = (inr (), w2) ∧
    data w2 = data w1 ∧
    getNotes t i w1 = (inr l, w1) ∧
    getNotes t i w2 = (inr l, w2) ∧
    r ∈ l.
Proof.
  intros Hd. eexists _, _, _, _.
  split; [by apply (addNote_initialized _ d)|].
  split; [apply initNotesDb_restart|].
  split; [done|].
  split; [by apply getNotes_initialized|].
  split; [by apply getNotes_initialized|].
  apply sort_elem_of, list_elem_of_filter. split; [done|]. simpl.
  apply elem_of_app. right. by left.
Qed.

Lemma getNotes_pure t i w : (getNotes t i w).2 = w.
Proof.
  unfold getNotes, the_data, throw, mbind, M_bind, mret, M_ret.
  by destruct (data w).
Qed.

Lemma searchNotes_pure q w : (searchNotes q w).2 = w.
Proof.
  unfold searchNotes, the_data, throw, mbind, M_bind, mret, M_ret.
  by destruct (data w).
Qed.

(** C7.  A stored note stays in the store, the same in every field, and
    stays among the notes [getNotes] returns for its pair, through every
    sequence of calls none of which is [deleteNote] with its id; and
    [getNotes] and [searchNotes] leave the variable and the file as they
    are. *)
Theorem stored_note_unchanged_until_deleted :
  (∀ cs d r,
     r ∈ notes d → Forall (λ c, c ≠ Delete (id r)) cs →
     ∃ d' l,
       (run cs (ready d)).2 = ready d' ∧ r ∈ notes d' ∧
       getNotes (entity_type r) (entity_id r) (ready d') = (inr l, ready d') ∧
       r ∈ l) ∧
  (∀ t i w, (getNotes t i w).2 = w) ∧
  (∀ q w, (searchNotes q w).2 = w).
Proof.
  split_and!.
  - intros cs d r Hr Hcs.
    destruct (run_keeps cs d r Hr Hcs) as (d' & Hw & Hr').
    eexists d', _. split_and!; [done|done|by apply getNotes_initialized|].
    apply sort_elem_of, list_elem_of_filter. by split.
  - apply getNotes_pure.
  - apply searchNotes_pure.
Qed.

(** C9.  Two calls of [addNote] with the same arguments on an initialized
    store whose [next_id] is a safe integer give two notes with ids one
    apart, and [getNotes] for the pair then returns both of them on top
    of what it returned before. *)
Theorem addNote_twice_two_notes w d t i n now1 now2 :
  data w = Some d →
  safe_integer (next_id d) →
  ∃ r1 w1 r2 w2 l0 l,
    addNote t i n now1 w = (inr r1, w1) ∧
    addNote t i n now2 w1 = (inr r2, w2) ∧
    id r2 = id r1 + 1 ∧ r1 ≠ r2 ∧
    getNotes t i w = (inr l0, w) ∧
    getNotes t i w2 = (inr l, w2) ∧
    l ≡ₚ r1 :: r2 :: l0 ∧
    r1 ∈ l ∧ r2 ∈ l.
Proof.
  intros Hd _. eexists _, _, _, _, _, _.
  split; [by apply (addNote_initialized _ d)|].
  split; [by apply addNote_initialized|]. simpl.
  split; [done|]. split; [intros [= ?]; lia|].
  split; [by apply getNotes_initialized|].
  split; [by apply getNotes_initialized|]. simpl.
  assert (sort newest_first
            (filter (λ n0, entity_type n0 = t ∧ entity_id n0 = i)
               ((notes d ++ [mkNoteRow (next_id d) t i n (timestamp now1)]) ++
                [mkNoteRow (next_id d + 1) t i n (timestamp now2)]))
          ≡ₚ mkNoteRow (next_id d) t i n (timestamp now1)
             :: mkNoteRow (next_id d + 1) t i n (timestamp now2)
             :: sort newest_first
                  (filter (λ n0, entity_type n0 = t ∧ entity_id n0 = i)
                          (notes d))) as Hperm.
  { rewrite !sort_Permutation, !filter_app.
    rewrite !filter_cons_True, !filter_nil by done.
    rewrite <-app_assoc. simpl.
    apply (Permutation_app_comm _ [_; _]). }
  split; [done|]. rewrite Hperm. split; [by left|]. right. by left.
Qed.

(** C10.  A call of the tool [flickr_delete_note] with an id, a safe
    integer, that no stored note has answers with the text
    [Note #<id> not found.] and with [isError] set to [true], while
    [deleteNote] itself returned [false] without throwing; the store is
    as it was. *)
Theorem flickr_delete_note_missing_is_error w d args nid :
  data w = Some d →
  args !! "note_id" = Some (JNum nid) →
  safe_integer nid →
  Forall (λ r, id r ≠ nid) (notes d) →
  deleteNote nid w = (inr false, w) ∧
  flickr_delete_note args w =
    (Response {| text := "Note #" +:+ pretty nid +:+ " not found.";
                 isError := Some true |}, w).
Proof.
  intros Hd Hargs _ Hnid.
  pose proof (deleteNote_missing w d nid Hd Hnid) as Hdel.
  split; [done|].
  unfold flickr_delete_note, delete_note_schema, delete_note_handler.
  rewrite Hargs. simpl. by rewrite Hdel.
Qed.
End claims.


(** ** Timestamps *)

Section timestamp_facts.
Import JsString JsDate JsArray NotesDb NotesSpec.

Lemma digit_is_digit n : is_digit (digit n) = true.
Proof.
  unfold digit. pose proof (Z.mod_pos_bound n 10 eq_refl) as H.
  assert (Z.to_nat (n `mod` 10) < 10)%nat as Hk by lia.
  destruct (Z.to_nat (n `mod` 10)) as [|[|[|[|[|[|[|[|[|[|k]]]]]]]]]];
    [reflexivity..|lia].
Qed.

Lemma digit_not_T n : digit n ≠ "T"%char.
Proof.
  intros H. pose proof (digit_is_digit n) as Hd. by rewrite H in Hd.
Qed.

Lemma replace_T_skip c rep s :
  c ≠ "T"%char →
  replace "T" rep (String c s) = String c (replace "T" rep s).
Proof.
  intros Hc. cbn [replace String.prefix].
  by destruct (ascii_dec "T" c) as [<-|_].
Qed.

Lemma replace_T_hit rep s : replace "T" rep (String "T" s) = rep +:+ s.
Proof. cbn [replace String.prefix]. by destruct s. Qed.

Lemma digits_2 n :
  digits 2 n = String (digit (n `div` 10)) (String (digit n) "").
Proof. reflexivity. Qed.

Lemma digits_3 n :
  digits 3 n = String (digit ((n `div` 10) `div` 10)) (digits 2 n).
Proof. reflexivity. Qed.

Lemma digits_4 n :
  digits 4 n = String (digit (((n `div` 10) `div` 10) `div` 10)) (digits 3 n).
Proof. reflexivity. Qed.

Lemma digits_6 n :
  digits 6 n =
    String (digit (((((n `div` 10) `div` 10) `div` 10) `div` 10) `div` 10))
      (String (digit ((((n `div` 10) `div` 10) `div` 10) `div` 10)) (digits 4 n)).
Proof. reflexivity. Qed.

Create Rewrite HintDb spell.
#[local] Hint Rewrite digits_6 digits_4 digits_3 digits_2 app_String app_empty
  : spell.

(** The timestamp of a time in the years 0 to 9999: the date, a blank and
    the time of day to the second. *)
Lemma timestamp_four_digit_year now :
  0 ≤ YearFromTime now ≤ 9999 →
  timestamp now =
    digits 4 (YearFromTime now) +:+ "-" +:+
    digits 2 (MonthFromTime now) +:+ "-" +:+
    digits 2 (DateFromTime now) +:+ " " +:+
    digits 2 (HourFromTime now) +:+ ":" +:+
    digits 2 (MinFromTime now) +:+ ":" +:+
    digits 2 (SecFromTime now).
Proof.
  intros Hy. unfold timestamp, toISOString, year_string.
  rewrite decide_True by done. autorewrite with spell.
  repeat (rewrite replace_T_skip by (done || apply digit_not_T)).
  rewrite replace_T_hit. autorewrite with spell. reflexivity.
Qed.

(** The timestamp of a time in any other year: the first 19 characters of
    the expanded form end with the minutes. *)
Lemma timestamp_expanded_year now :
  ¬ 0 ≤ YearFromTime now ≤ 9999 →
  timestamp now =
    (if decide (YearFromTime now < 0) then "-" else "+") +:+
    digits 6 (Z.abs (YearFromTime now)) +:+ "-" +:+
    digits 2 (MonthFromTime now) +:+ "-" +:+
    digits 2 (DateFromTime now) +:+ " " +:+
    digits 2 (HourFromTime now) +:+ ":" +:+
    digits 2 (MinFromTime now).
Proof.
  intros Hy. unfold timestamp, toISOString, year_string.
  rewrite decide_False by done.
  destruct (decide (YearFromTime now < 0)); autorewrite with spell;
    repeat (rewrite replace_T_skip by (done || apply digit_not_T));
    rewrite replace_T_hit; autorewrite with spell; reflexivity.
Qed.


(** Times of the same second have the same calendar fields. *)
Lemma same_second_fields t1 t2 :
  t1 `div` 1000 = t2 `div` 1000 →
  Day t1 = Day t2 ∧ HourFromTime t1 = HourFromTime t2 ∧
  MinFromTime t1 = MinFromTime t2 ∧ SecFromTime t1 = SecFromTime t2.
Proof.
  intros H. unfold Day, HourFromTime, MinFromTime, SecFromTime.
  unfold msPerDay, msPerHour, msPerMinute, msPerSecond.
  change 86400000 with (1000 * 86400). change 3600000 with (1000 * 3600).
  change 60000 with (1000 * 60).
  rewrite <-!Z.div_div by lia. by rewrite H.
Qed.

Lemma timestamp_same_second t1 t2 :
  t1 `div` 1000 = t2 `div` 1000 → timestamp t1 = timestamp t2.
Proof.
  intros H. destruct (same_second_fields t1 t2 H) as (Hd & Hh & Hm & Hs).
  assert (YearFromTime t1 = YearFromTime t2) as HY
    by (unfold YearFromTime; by rewrite Hd).
  assert (MonthFromTime t1 = MonthFromTime t2) as HM
    by (unfold MonthFromTime; by rewrite Hd).
  assert (DateFromTime t1 = DateFromTime t2) as HD
    by (unfold DateFromTime; by rewrite Hd).
  destruct (decide (0 ≤ YearFromTime t1 ≤ 9999)) as [Hy|Hy].
  - rewrite !timestamp_four_digit_year by (done || by rewrite <-HY).
    by rewrite HY, HM, HD, Hh, Hm, Hs.
  - rewrite !timestamp_expanded_year by (done || by rewrite <-HY).
    by rewrite HY, HM, HD, Hh, Hm.
Qed.
End timestamp_facts.

(** ** The calendar *)

Section calendar_facts.
Import JsString JsDate NotesDb NotesSpec.

(** The year and the day of the year of a day of the era. *)
Lemma year_of_era_spec doe :
  0 ≤ doe ≤ 146096 →
  0 ≤ year_of_era doe ≤ 399 ∧
  0 ≤ doe - year_start (year_of_era doe) ≤ 365 ∧
  (doe - year_start (year_of_era doe) = 365 →
   year_of_era doe `mod` 4 = 3 ∧
   (year_of_era doe `mod` 100 ≠ 99 ∨ year_of_era doe = 399)).
Proof.
  intros H. unfold year_of_era, year_start. Z.div_mod_to_equations; lia.
Qed.

Lemma year_of_era_mono a b :
  0 ≤ a → a ≤ b → b ≤ 146096 → year_of_era a ≤ year_of_era b.
Proof.
  intros Ha Hab Hb. unfold year_of_era.
  apply Z.div_le_mono; [lia|]. Z.div_mod_to_equations; lia.
Qed.

Lemma civil_bounds days :
  1 ≤ (civil days).1.2 ≤ 12 ∧ 1 ≤ (civil days).2 ≤ 31.
Proof.
  unfold civil. cbv zeta. simpl.
  pose proof (Z.mod_pos_bound (days + 719468) 146097 eq_refl) as Hdoe.
  destruct (year_of_era_spec ((days + 719468) `mod` 146097)) as (_ & Hdoy & _);
    [lia|].
  set (doy := _ - year_start _) in *. clearbody doy.
  unfold month_index, month_start.
  case_decide; Z.div_mod_to_equations; lia.
Qed.

(** [civil] gives the year of ECMA-262 ... *)
Lemma civil_year days :
  DayFromYear (civil days).1.1 ≤ days < DayFromYear ((civil days).1.1 + 1).
Proof.
  unfold civil. cbv zeta. simpl.
  pose proof (Z.mod_pos_bound (days + 719468) 146097 eq_refl) as Hdoe.
  pose proof (Z.div_mod (days + 719468) 146097 ltac:(lia)) as Hdm.
  set (doe := (days + 719468) `mod` 146097) in *.
  set (era := (days + 719468) `div` 146097) in *.
  clearbody doe era.
  destruct (year_of_era_spec doe) as (Hy & Hdoy & Hleap); [lia|].
  set (yoe := year_of_era doe) in *. clearbody yoe.
  unfold month_index, month_start, DayFromYear, year_start in *.
  case_decide; case_decide; Z.div_mod_to_equations; lia.
Qed.

(** ... and its month and date. *)
Lemma civil_month_date days :
  ((civil days).1.2, (civil days).2) =
  month_and_date (days - DayFromYear (civil days).1.1)
                 (InLeapYear (civil days).1.1).
Proof.
  unfold civil. cbv zeta. simpl.
  pose proof (Z.mod_pos_bound (days + 719468) 146097 eq_refl) as Hdoe.
  pose proof (Z.div_mod (days + 719468) 146097 ltac:(lia)) as Hdm.
  set (doe := (days + 719468) `mod` 146097) in *.
  set (era := (days + 719468) `div` 146097) in *.
  clearbody doe era.
  destruct (year_of_era_spec doe) as (Hy & Hdoy & Hleap); [lia|].
  set (yoe := year_of_era doe) in *.
  assert (days = doe - year_start yoe + year_start yoe + 146097 * era - 719468)
    as -> by lia.
  set (doy := doe - year_start yoe) in *. clearbody doy yoe.
  clear Hdm Hdoe doe.
  assert (0 ≤ month_index doy ≤ 11) as Hmp
    by (unfold month_index; Z.div_mod_to_equations; lia).
  assert (month_index doy < 10 ↔ doy < 306) as Hjan
    by (unfold month_index; Z.div_mod_to_equations; lia).
  destruct (decide (month_index doy < 10)) as [Hlt|Hge].
  - rewrite decide_False by lia.
    set (y := yoe + era * 400).
    assert (doy + year_start yoe + 146097 * era - 719468 - DayFromYear y
            = doy + 59 + InLeapYear y) as ->.
    { unfold y, DayFromYear, year_start, InLeapYear.
      case_decide; Z.div_mod_to_equations; lia. }
    assert (0 ≤ InLeapYear y ≤ 1) as HL
      by (unfold InLeapYear; case_decide; lia).
    revert HL. generalize (InLeapYear y). intros L HL. clear y.
    unfold month_index, month_start, month_and_date in *.
    repeat case_decide; f_equal; Z.div_mod_to_equations; lia.
  - rewrite decide_True by lia.
    set (y := yoe + era * 400 + 1).
    assert (doy + year_start yoe + 146097 * era - 719468 - DayFromYear y
            = doy - 306) as ->.
    { unfold y, DayFromYear, year_start. Z.div_mod_to_equations; lia. }
    assert (0 ≤ InLeapYear y ≤ 1 ∧ (doy = 365 → InLeapYear y = 1)) as HL.
    { unfold InLeapYear, y. case_decide; [lia|]. split; [lia|]. intros Hd.
      Z.div_mod_to_equations; lia. }
    revert HL. generalize (InLeapYear y). intros L HL. clear y.
    unfold month_index, month_start, month_and_date in *.
    repeat case_decide; f_equal; Z.div_mod_to_equations; lia.
Qed.

Lemma DayFromYear_mono y1 y2 : y1 ≤ y2 → DayFromYear y1 ≤ DayFromYear y2.
Proof. intros H. unfold DayFromYear. Z.div_mod_to_equations; lia. Qed.

Lemma four_digit_year_iff now :
  four_digit_year now ↔ 0 ≤ YearFromTime now ≤ 9999.
Proof.
  unfold four_digit_year, YearFromTime.
  pose proof (civil_year (Day now)) as Hy.
  set (y := (civil (Day now)).1.1) in *. clearbody y.
  assert (-62167219200000 ≤ now < 253402300800000 ↔
          DayFromYear 0 ≤ Day now < DayFromYear 10000) as ->.
  { unfold Day, msPerDay. change (DayFromYear 0) with (-719528).
    change (DayFromYear 10000) with 2932897. Z.div_mod_to_equations; lia. }
  split.
  - intros Hd. split.
    + destruct (decide (0 ≤ y)); [done|].
      pose proof (DayFromYear_mono (y + 1) 0 ltac:(lia)). lia.
    + destruct (decide (y ≤ 9999)); [done|].
      pose proof (DayFromYear_mono 10000 y ltac:(lia)). lia.
  - intros Hyr. pose proof (DayFromYear_mono 0 y ltac:(lia)).
    pose proof (DayFromYear_mono (y + 1) 10000 ltac:(lia)). lia.
Qed.

(** A later day has a later date. *)
Lemma civil_mono d1 d2 : d1 < d2 → earlier_date (civil d1) (civil d2).
Proof.
  intros H. unfold earlier_date, civil. cbv zeta. simpl.
  pose proof (Z.mod_pos_bound (d1 + 719468) 146097 eq_refl) as Hdoe1.
  pose proof (Z.mod_pos_bound (d2 + 719468) 146097 eq_refl) as Hdoe2.
  assert ((d1 + 719468) `div` 146097 < (d2 + 719468) `div` 146097 ∨
          (d1 + 719468) `div` 146097 = (d2 + 719468) `div` 146097 ∧
          (d1 + 719468) `mod` 146097 < (d2 + 719468) `mod` 146097) as Hera
    by (Z.div_mod_to_equations; lia).
  destruct (year_of_era_spec ((d1 + 719468) `mod` 146097)) as (Hy1 & Hdoy1 & _);
    [lia|].
  destruct (year_of_era_spec ((d2 + 719468) `mod` 146097)) as (Hy2 & Hdoy2 & _);
    [lia|].
  set (era1 := (d1 + 719468) `div` 146097) in *.
  set (era2 := (d2 + 719468) `div` 146097) in *.
  set (doe1 := (d1 + 719468) `mod` 146097) in *.
  set (doe2 := (d2 + 719468) `mod` 146097) in *.
  clearbody era1 era2 doe1 doe2. clear H.
  assert (doe1 < doe2 →
          year_of_era doe1 < year_of_era doe2 ∨
          year_of_era doe1 = year_of_era doe2 ∧
          doe1 - year_start (year_of_era doe1)
          < doe2 - year_start (year_of_era doe2)) as Hyear.
  { intros Hlt.
    pose proof (year_of_era_mono doe1 doe2 ltac:(lia) ltac:(lia) ltac:(lia)).
    destruct (decide (year_of_era doe1 = year_of_era doe2)) as [->|];
      [right|left]; lia. }
  set (yoe1 := year_of_era doe1) in *. set (yoe2 := year_of_era doe2) in *.
  set (doy1 := doe1 - year_start yoe1) in *.
  set (doy2 := doe2 - year_start yoe2) in *.
  clearbody yoe1 yoe2 doy1 doy2.
  unfold month_index, month_start.
  repeat case_decide; Z.div_mod_to_equations; lia.
Qed.

(** A later second is a later day, or the same day and a later time of
    day. *)
Lemma time_of_day_mono t1 t2 :
  t1 `div` 1000 < t2 `div` 1000 →
  Day t1 < Day t2 ∨
  Day t1 = Day t2 ∧
  (HourFromTime t1 < HourFromTime t2 ∨
   HourFromTime t1 = HourFromTime t2 ∧
   (MinFromTime t1 < MinFromTime t2 ∨
    MinFromTime t1 = MinFromTime t2 ∧ SecFromTime t1 < SecFromTime t2)).
Proof.
  unfold Day, HourFromTime, MinFromTime, SecFromTime.
  unfold msPerDay, msPerHour, msPerMinute, msPerSecond.
  change 86400000 with (1000 * 86400). change 3600000 with (1000 * 3600).
  change 60000 with (1000 * 60).
  rewrite <-!Z.div_div by lia.
  generalize (t1 `div` 1000) (t2 `div` 1000). intros s1 s2 H.
  Z.div_mod_to_equations; lia.
Qed.

(** Strings of digits of one length compare as the numbers they spell. *)
Lemma string_app_assoc a b c : (a +:+ b) +:+ c = a +:+ b +:+ c.
Proof. induction a as [|x a IH]; [done|]. by rewrite !app_String, IH. Qed.

Lemma string_app_nil_r a : a +:+ "" = a.
Proof. induction a as [|x a IH]; [done|]. by rewrite app_String, IH. Qed.

Lemma compare_same_head c x y :
  String.compare (String c x) (String c y) = String.compare x y.
Proof.
  cbn [String.compare]. unfold Ascii.compare. by rewrite N.compare_refl.
Qed.

Lemma compare_digit a b x y :
  String.compare (String (digit a) x) (String (digit b) y) =
  match a `mod` 10 ?= b `mod` 10 with
  | Eq => String.compare x y
  | c => c
  end.
Proof.
  cbn [String.compare]. unfold Ascii.compare, digit.
  pose proof (Z.mod_pos_bound a 10 eq_refl) as Ha.
  pose proof (Z.mod_pos_bound b 10 eq_refl) as Hb.
  unfold ascii_of_nat. rewrite !N_ascii_embedding by lia.
  destruct (Z.compare_spec (a `mod` 10) (b `mod` 10)) as [Heq|Hlt|Hgt].
  - rewrite Heq. by rewrite N.compare_refl.
  - by rewrite (proj2 (N.compare_lt_iff _ _)) by lia.
  - by rewrite (proj2 (N.compare_gt_iff _ _)) by lia.
Qed.

Lemma compare_digits k a b x y :
  0 ≤ a < 10 ^ Z.of_nat k → 0 ≤ b < 10 ^ Z.of_nat k →
  String.compare (digits k a +:+ x) (digits k b +:+ y) =
  match a ?= b with
  | Eq => String.compare x y
  | c => c
  end.
Proof.
  revert a b x y. induction k as [|k IH]; intros a b x y Ha Hb.
  - simpl in *. assert (a = 0) as -> by lia. by assert (b = 0) as -> by lia.
  - rewrite Nat2Z.inj_succ, Z.pow_succ_r in Ha, Hb by lia.
    cbn [digits]. rewrite !string_app_assoc, !app_String, !app_empty.
    rewrite IH by (Z.div_mod_to_equations; lia).
    rewrite compare_digit.
    destruct (Z.compare_spec (a `div` 10) (b `div` 10)),
             (Z.compare_spec (a `mod` 10) (b `mod` 10)),
             (Z.compare_spec a b); try done; Z.div_mod_to_equations; lia.
Qed.

Lemma compare_digits_end k a b :
  0 ≤ a < 10 ^ Z.of_nat k → 0 ≤ b < 10 ^ Z.of_nat k →
  String.compare (digits k a) (digits k b) = (a ?= b).
Proof.
  intros Ha Hb.
  rewrite <-(string_app_nil_r (digits k a)), <-(string_app_nil_r (digits k b)).
  rewrite compare_digits by done. by destruct (a ?= b).
Qed.

(** In the years 0 to 9999 the timestamp of a later second sorts after the
    timestamp of an earlier one. *)
Lemma timestamp_lt t1 t2 :
  0 ≤ YearFromTime t1 ≤ 9999 → 0 ≤ YearFromTime t2 ≤ 9999 →
  t1 `div` 1000 < t2 `div` 1000 →
  String.compare (timestamp t1) (timestamp t2) = Lt.
Proof.
  intros Hy1 Hy2 Hlt.
  rewrite !timestamp_four_digit_year by done.
  pose proof (civil_bounds (Day t1)) as [HM1 HD1].
  pose proof (civil_bounds (Day t2)) as [HM2 HD2].
  fold (MonthFromTime t1) (DateFromTime t1) in HM1, HD1.
  fold (MonthFromTime t2) (DateFromTime t2) in HM2, HD2.
  assert (∀ t, 0 ≤ HourFromTime t < 100 ∧ 0 ≤ MinFromTime t < 100 ∧
               0 ≤ SecFromTime t < 100) as Hf.
  { intros t. unfold HourFromTime, MinFromTime, SecFromTime.
    Z.div_mod_to_equations; lia. }
  destruct (Hf t1) as (Hh1 & Hm1 & Hs1). destruct (Hf t2) as (Hh2 & Hm2 & Hs2).
  rewrite !app_String, !app_empty.
  repeat first
    [ rewrite compare_digits by (simpl; lia)
    | rewrite compare_digits_end by (simpl; lia)
    | rewrite compare_same_head ].
  pose proof (civil_mono (Day t1) (Day t2)) as Hlex.
  unfold earlier_date in Hlex.
  fold (YearFromTime t1) (YearFromTime t2) (MonthFromTime t1)
       (MonthFromTime t2) (DateFromTime t1) (DateFromTime t2) in Hlex.
  pose proof (time_of_day_mono t1 t2 Hlt) as Htod.
  assert (Day t1 = Day t2 →
          YearFromTime t1 = YearFromTime t2 ∧
          MonthFromTime t1 = MonthFromTime t2 ∧
          DateFromTime t1 = DateFromTime t2) as Hsame.
  { unfold YearFromTime, MonthFromTime, DateFromTime. by intros ->. }
  repeat match goal with
         | |- context [?a ?= ?b] => destruct (Z.compare_spec a b)
         end; try done; lia.
Qed.

(** So the timestamps of such times are ordered as their seconds are. *)
Lemma timestamp_le_iff t1 t2 :
  0 ≤ YearFromTime t1 ≤ 9999 → 0 ≤ YearFromTime t2 ≤ 9999 →
  String.le (timestamp t1) (timestamp t2) ↔ t1 `div` 1000 ≤ t2 `div` 1000.
Proof.
  intros Hy1 Hy2. unfold String.le, String.leb. split.
  - intros Hle. destruct (decide (t1 `div` 1000 ≤ t2 `div` 1000)); [done|].
    rewrite String.compare_antisym, timestamp_lt in Hle by (done || lia).
    done.
  - intros Hle. destruct (decide (t1 `div` 1000 = t2 `div` 1000)) as [Heq|Hne].
    + rewrite (timestamp_same_second t1 t2 Heq).
      pose proof (String.compare_antisym (timestamp t2) (timestamp t2)) as H.
      by destruct (String.compare _ _).
    + by rewrite timestamp_lt by (done || lia).
Qed.
(** Of two notes stamped at such times, the one that sorts first is the
    one of the later second, or of the same. *)
Lemma not_older_seconds a b ta tb :
  four_digit_year ta → four_digit_year tb →
  created_at a = timestamp ta → created_at b = timestamp tb →
  not_older a b ↔ tb `div` 1000 ≤ ta `div` 1000.
Proof.
  intros Ha%four_digit_year_iff Hb%four_digit_year_iff Hca Hcb.
  unfold not_older. rewrite Hca, Hcb. by apply timestamp_le_iff.
Qed.
End calendar_facts.

Section timestamp_claims.
Import JsString JsDate JsArray NotesDb NotesSpec.



End timestamp_claims.

(** ** The scenario, run *)

Section scenario.
Import JsString JsDate JsArray NotesDb NotesSpec NoteTools Scenario.

Example toISOString_epoch : toISOString 0 = "1970-01-01T00:00:00.000Z".
Proof. vm_compute. reflexivity. Qed.

Example toISOString_leap_day :
  toISOString 1709251199000 = "2024-02-29T23:59:59.000Z".
Proof. vm_compute. reflexivity. Qed.

Example toISOString_before_epoch :
  toISOString (-1) = "1969-12-31T23:59:59.999Z".
Proof. vm_compute. reflexivity. Qed.

Example toISOString_year_10000 :
  toISOString 253402300800000 = "+010000-01-01T00:00:00.000Z".
Proof. vm_compute. reflexivity. Qed.

Example timestamp_of_t_focus : timestamp t_focus = "2026-11-03 12:34:56".
Proof. vm_compute. reflexivity. Qed.

Example scenario_additions :
  run calls fresh_store = ([Row focus; Row submit], ready store).
Proof. vm_compute. reflexivity. Qed.

(** Both notes are listed, the more recent first; once the first one is
    deleted only the second is listed, and is what a search for [submit]
    finds, while a search for [focus] finds nothing. *)
Example scenario_trace :
  (run [Get photo "123"; Delete 1; Get photo "123";
        Search "submit"; Search "focus"] (ready store)).1 =
  [Rows [submit; focus]; Flag true; Rows [submit];
   Rows [submit]; Rows []].
Proof. vm_compute. reflexivity. Qed.

Example scenario_delete_missing :
  flickr_delete_note (delete_args 7) (ready store) =
  (Response {| text := "Note #7 not found."; isError := Some true |},
   ready store).
Proof. vm_compute. reflexivity. Qed.

Example scenario_add_empty :
  flickr_add_note empty_note_args t_focus (ready store) =
  (InvalidParams, ready store).
Proof. vm_compute. reflexivity. Qed.


Lemma deleteNote_witness :
  ((Forall (λ r, id r ≠ 7) (notes store) ∧
    deleteNote 7 (ready store) = (inr false, ready store)) ∨
   (∃ l1 r l2,
      notes store = l1 ++ r :: l2 ∧ id r = 7 ∧
      Forall (λ x, id x ≠ 7) l1 ∧
      deleteNote 7 (ready store) =
        (inr true, ready {| next_id := next_id store; notes := l1 ++ l2 |}))) ∧
  (∃ w4,
     deleteNote 2 (run [Get photo "123"; Delete 1] (ready store)).2
       = (inr true, w4) ∧
     deleteNote 2 (run [Delete 2; Add album "9" "x" 0] w4).2
       = (inr false, (run [Delete 2; Add album "9" "x" 0] w4).2)).
Proof.
  destruct deleteNote_true_once_then_false as [Hone Hseq]. split.
  - exact (Hone (ready store) store 7 eq_refl).
  - apply (Hseq [Add photo "123" "check focus" t_focus]
             [Get photo "123"; Delete 1] [Delete 2; Add album "9" "x" 0]
             photo "123" "submit to group X" t_submit submit (ready store)).
    + vm_compute. reflexivity.
    + repeat constructor; discriminate.
Defined.

Lemma flickr_add_note_witness :
  flickr_add_note empty_note_args t_focus (ready store)
  = (InvalidParams, ready store).
Proof.
  apply flickr_add_note_rejects_invalid. left. vm_compute. reflexivity.
Defined.

Lemma restart_witness :
  ∃ r w1 w2 l,
    addNote album "72157" "cover photo?" t_focus (ready store) = (inr r, w1) ∧
    initNotesDb (restart w1) = (inr (), w2) ∧
    data w2 = data w1 ∧
    getNotes album "72157" w1 = (inr l, w1) ∧
    getNotes album "72157" w2 = (inr l, w2) ∧
    r ∈ l.
Proof.
  apply (addNote_survives_restart (ready store) store). reflexivity.
Defined.

Lemma stored_note_witness :
  ∃ d' l,
    (run [Add photo "123" "again" t_submit; Delete 2; Search ""; Init]
         (ready store)).2 = ready d' ∧
    focus ∈ notes d' ∧
    getNotes photo "123" (ready d') = (inr l, ready d') ∧
    focus ∈ l.
Proof.
  destruct stored_note_unchanged_until_deleted as [Hkeep _].
  apply (Hkeep [Add photo "123" "again" t_submit; Delete 2; Search ""; Init]
           store focus).
  - simpl. left.
  - repeat constructor; discriminate.
Defined.

Lemma addNote_twice_witness :
  ∃ r1 w1 r2 w2 l0 l,
    addNote photo "123" "check focus" t_submit (ready store) = (inr r1, w1) ∧
    addNote photo "123" "check focus" t_submit w1 = (inr r2, w2) ∧
    id r2 = id r1 + 1 ∧ r1 ≠ r2 ∧
    getNotes photo "123" (ready store) = (inr l0, ready store) ∧
    getNotes photo "123" w2 = (inr l, w2) ∧
    l ≡ₚ r1 :: r2 :: l0 ∧
    r1 ∈ l ∧ r2 ∈ l.
Proof.
  apply (addNote_twice_two_notes (ready store) store); [reflexivity|].
  unfold safe_integer, MAX_SAFE_INTEGER. simpl. lia.
Defined.

Lemma flickr_delete_note_witness :
  deleteNote 7 (ready store) = (inr false, ready store) ∧
  flickr_delete_note (delete_args 7) (ready store) =
    (Response {| text := "Note #" +:+ pretty 7 +:+ " not found.";
                 isError := Some true |}, ready store).
Proof.
  apply (flickr_delete_note_missing_is_error (ready store) store).
  - reflexivity.
  - vm_compute. reflexivity.
  - unfold safe_integer, MAX_SAFE_INTEGER. lia.
  - repeat constructor; discriminate.
Defined.

End scenario.


(** * Further properties: the store, the tools, the client, the start *)

(** ** The store: initialization, persistence and frames *)

Section store_extras.
Import JsString JsDate JsArray NotesDb NotesSpec Scenario.

Lemma initNotesDb_loads_or_creates_aux w :
  ∃ d, initNotesDb w = (inr (), ready d).
Proof.
  destruct (file w) as [doc|] eqn:Hf.
  - exists doc. by apply initNotesDb_file.
  - eexists. run_monad. by rewrite Hf.
Qed.

(** X1.  [initNotesDb] loads the document of an existing file and does
    not write; with no file it makes the store with [next_id] 1 and no
    notes and creates the file; either way the variable and the file then
    hold the same, and a second call changes nothing. *)
Theorem initNotesDb_loads_or_creates w :
  initNotesDb w =
    (inr (), ready (default {| next_id := 1; notes := [] |} (file w))) ∧
  initNotesDb (initNotesDb w).2 = (inr (), (initNotesDb w).2).
Proof.
  assert (initNotesDb w =
            (inr (), ready (default {| next_id := 1; notes := [] |} (file w))))
    as Hinit.
  { destruct (file w) as [doc|] eqn:Hf; [by apply initNotesDb_file|].
    run_monad. by rewrite Hf. }
  rewrite Hinit. split; [done|apply initNotesDb_ready].
Qed.

(** X2.  Before [initNotesDb] has run, every function of the store throws
    a [TypeError] and leaves the variable and the file as they are: no
    file is made by a call that comes too early. *)
Theorem store_functions_before_init w :
  data w = None →
  (∀ t i n now, ∃ m, addNote t i n now w = (inl (TypeError m), w)) ∧
  (∀ t i, ∃ m, getNotes t i w = (inl (TypeError m), w)) ∧
  (∀ nid, ∃ m, deleteNote nid w = (inl (TypeError m), w)) ∧
  (∀ q, ∃ m, searchNotes q w = (inl (TypeError m), w)).
Proof.
  intros Hd. split_and!; intros; eexists; run_monad; by rewrite Hd.
Qed.

Lemma store_functions_before_init_witness :
  ∃ m, addNote photo "123" "too early" t_focus boot = (inl (TypeError m), boot).
Proof.
  destruct (store_functions_before_init boot eq_refl) as (Hadd & _).
  apply Hadd.
Defined.

(** X3.  Once [initNotesDb] has run, whatever the state it ran in, the
    file holds what the variable holds after every call: each change is
    written before the call that made it returns. *)
Theorem file_follows_data w cs :
  ∃ d, (run (Init :: cs) w).2 = ready d.
Proof.
  rewrite run_cons.
  assert (∃ d0, perform Init w = (Done, ready d0)) as [d0 ->].
  { destruct (initNotesDb_loads_or_creates_aux w) as [d0 H]. exists d0.
    unfold perform, answered. by rewrite H. }
  apply run_ready.
Qed.
(** X4.  The ids keep increasing across a restart: the ids [addNote]
    hands out in a process, then in a new process started on the file the
    first one left, are strictly increasing taken together, so no id of
    the first process comes again in the second. *)
Theorem ids_increase_across_restart cs1 cs2 :
  StronglySorted Z.lt
    (assigned_ids (run cs1 fresh_store).1 ++
     assigned_ids (run (Init :: cs2) (restart (run cs1 fresh_store).2)).1).
Proof.
  rewrite fresh_store_ready.
  destruct (assigned_ids_from cs1 {| next_id := 1; notes := [] |})
    as (d1 & Hw1 & _ & Hids1 & Hsorted1).
  rewrite Hw1, run_cons.
  assert (perform Init (restart (ready d1)) = (Done, ready d1)) as ->.
  { unfold perform, answered. by rewrite initNotesDb_restart. }
  destruct (assigned_ids_from cs2 d1) as (d2 & _ & _ & Hids2 & Hsorted2).
  simpl. apply StronglySorted_app_2; [|done|done].
  intros x1 x2 Hx1 Hx2. rewrite Forall_forall in Hids1, Hids2.
  specialize (Hids1 _ Hx1). specialize (Hids2 _ Hx2). lia.
Qed.

(** X5.  On a store whose ids are all below [next_id], a safe integer,
    deleting the id [addNote] has just returned removes that very note:
    the notes are again what they were before the addition, while
    [next_id] stays advanced. *)
Theorem delete_undoes_add w d t i n now :
  data w = Some d → well_formed d → safe_integer (next_id d) →
  ∃ r w1,
    addNote t i n now w = (inr r, w1) ∧
    deleteNote (id r) w1 =
      (inr true, ready {| next_id := next_id d + 1; notes := notes d |}).
Proof.
  intros Hd [Hlt _] _. eexists _, _.
  split; [by apply (addNote_initialized _ d)|]. simpl.
  set (r := mkNoteRow (next_id d) t i n (timestamp now)).
  pose proof (deleteNote_found
                (ready {| next_id := next_id d + 1; notes := notes d ++ [r] |})
                {| next_id := next_id d + 1; notes := notes d ++ [r] |}
                (next_id d) (notes d) r []) as Hdel.
  simpl in Hdel. rewrite app_nil_r in Hdel. apply Hdel; [done|done| |done].
  eapply Forall_impl; [exact Hlt|]. simpl. lia.
Qed.

Lemma delete_undoes_add_witness :
  ∃ r w1,
    addNote album "9" "cover?" t_focus (ready store) = (inr r, w1) ∧
    deleteNote (id r) w1 =
      (inr true, ready {| next_id := next_id store + 1; notes := notes store |}).
Proof.
  apply (delete_undoes_add (ready store) store); [reflexivity| |].
  - unfold well_formed. apply (bool_decide_unpack _). vm_compute. reflexivity.
  - unfold safe_integer, MAX_SAFE_INTEGER. simpl. lia.
Defined.

(** X6.  Every note [searchNotes] returns is a stored note, and [getNotes]
    lists it for the pair it is attached to. *)
Theorem search_hits_listed_by_getNotes w d q :
  data w = Some d →
  ∃ l, searchNotes q w = (inr l, w) ∧
    ∀ r, r ∈ l →
      r ∈ notes d ∧
      ∃ l', getNotes (entity_type r) (entity_id r) w = (inr l', w) ∧ r ∈ l'.
Proof.
  intros Hd. eexists. split; [by apply searchNotes_initialized|].
  intros r (k & Hk%list_elem_of_lookup_2 & _)%elem_of_take.
  apply sort_elem_of, list_elem_of_filter in Hk as [_ Hr].
  split; [done|]. eexists. split; [by apply getNotes_initialized|].
  apply sort_elem_of, list_elem_of_filter. by split.
Qed.

Lemma search_hits_witness :
  ∃ l, searchNotes "focus" (ready store) = (inr l, ready store) ∧
    ∀ r, r ∈ l →
      r ∈ notes store ∧
      ∃ l', getNotes (entity_type r) (entity_id r) (ready store)
            = (inr l', ready store) ∧ r ∈ l'.
Proof. apply (search_hits_listed_by_getNotes (ready store) store). reflexivity. Defined.

(** X7.  [searchNotes] does not look at the case of the query: two
    queries that are the same up to the case of their letters give the
    same result, on any state. *)
Theorem searchNotes_ignores_query_case q q' w :
  same_ignoring_case q q' → searchNotes q w = searchNotes q' w.
Proof.
  intros H%toLowerCase_same. unfold searchNotes. by rewrite H.
Qed.

Lemma searchNotes_ignores_query_case_witness :
  searchNotes "SubMit" (ready store) = searchNotes "sUBMIT" (ready store).
Proof.
  apply searchNotes_ignores_query_case, toLowerCase_same. reflexivity.
Defined.

(** X9.  A change to the notes of one entity is not seen from another:
    [getNotes] for a pair returns the same after [addNote] with a
    different pair, and after a [deleteNote] that finds no note of the
    pair under the id. *)
Theorem getNotes_other_entity_unchanged w d t' i' :
  data w = Some d →
  (∀ t i n now, (t, i) ≠ (t', i') →
     (getNotes t' i' (addNote t i n now w).2).1 = (getNotes t' i' w).1) ∧
  (∀ nid,
     Forall (λ r, id r = nid → (entity_type r, entity_id r) ≠ (t', i'))
            (notes d) →
     (getNotes t' i' (deleteNote nid w).2).1 = (getNotes t' i' w).1).
Proof.
  intros Hd. split.
  - intros t i n now Hne.
    rewrite (addNote_initialized _ d) by done.
    rewrite (getNotes_initialized w d) by done.
    erewrite getNotes_initialized by reflexivity. simpl.
    rewrite filter_app, filter_cons_False, filter_nil, app_nil_r; [done|].
    simpl. intros [-> ->]. done.
  - intros nid Hnid. rewrite (getNotes_initialized w d) by done.
    destruct (find_id_split nid (notes d))
      as [H|(l1 & r & l2 & Hl & Hl1 & Hr)].
    + rewrite (deleteNote_missing _ d) by done.
      by rewrite (getNotes_initialized w d).
    + rewrite (deleteNote_found _ d nid l1 r l2) by done.
      erewrite getNotes_initialized by reflexivity. simpl.
      rewrite Hl in Hnid |- *. rewrite filter_app, (filter_app _ l1).
      rewrite filter_cons_False; [done|].
      apply Forall_app in Hnid as [_ Hr'%Forall_inv].
      intros [<- <-]. by apply Hr'.
Qed.

Lemma getNotes_other_entity_witness :
  (getNotes photo "123" (addNote album "123" "x" t_focus (ready store)).2).1
  = (getNotes photo "123" (ready store)).1.
Proof.
  destruct (getNotes_other_entity_unchanged (ready store) store photo "123"
              eq_refl) as [Hadd _].
  apply Hadd. discriminate.
Defined.

(** X26.  [deleteNote] removes one note and no more: the first stored
    note with the id.  The notes before it and after it stay, in their
    order, also a later one with the same id, such as a file edited by
    hand can hold; [next_id] stays. *)
Theorem deleteNote_removes_first_only w d nid l1 r l2 :
  data w = Some d →
  notes d = l1 ++ r :: l2 →
  Forall (λ x, id x ≠ nid) l1 →
  id r = nid →
  ∃ d',
    deleteNote nid w = (inr true, ready d') ∧
    notes d' = l1 ++ l2 ∧ next_id d' = next_id d.
Proof.
  intros Hd Hl Hl1 Hr. eexists. split; [by eapply deleteNote_found|done].
Qed.

Lemma deleteNote_removes_first_only_witness :
  ∃ d',
    deleteNote 1 (ready {| next_id := 3; notes := [submit; focus; focus] |})
      = (inr true, ready d') ∧
    notes d' = [submit] ++ [focus] ∧ next_id d' = 3.
Proof.
  apply (deleteNote_removes_first_only
           (ready {| next_id := 3; notes := [submit; focus; focus] |})
           {| next_id := 3; notes := [submit; focus; focus] |}
           1 [submit] focus [focus]);
    [reflexivity|reflexivity| |reflexivity].
  by repeat constructor.
Defined.

(** X27.  A store in which every id is below [next_id] and no id comes
    twice stays so under every sequence of calls for which [next_id]
    stays a safe integer, one step for each call at most; [next_id]
    never goes down, and goes up by the number of calls at most. *)
Theorem well_formed_is_kept cs d :
  well_formed d →
  safe_integer (next_id d) →
  safe_integer (next_id d + Z.of_nat (length cs)) →
  ∃ d', (run cs (ready d)).2 = ready d' ∧ well_formed d' ∧
        next_id d ≤ next_id d' ≤ next_id d + Z.of_nat (length cs) ∧
        safe_integer (next_id d').
Proof.
  intros Hwf Hsafe Hroom.
  assert (∃ d', (run cs (ready d)).2 = ready d' ∧ well_formed d' ∧
                next_id d ≤ next_id d' ≤ next_id d + Z.of_nat (length cs))
    as (d' & Hrun & Hwf' & Hle).
  { clear Hsafe Hroom. revert d Hwf.
    induction cs as [|c cs IH]; intros d Hwf.
    - exists d. split_and!; [done|done|lia|simpl; lia].
    - destruct (perform_step c d) as (a & d1 & Hp & Hstep).
      destruct (step_well_formed _ _ _ _ Hstep Hwf) as [Hwf1 Hle1].
      assert (next_id d1 ≤ next_id d + 1) as Hup
        by (destruct (step_next_id _ _ _ _ Hstep) as [(? & _ & _ & ->)|[_ ->]];
            lia).
      destruct (IH d1 Hwf1) as (d' & Hw & Hwf' & Hle).
      exists d'. rewrite run_cons, Hp. split_and!; [done|done|lia|].
      rewrite length_cons. lia. }
  exists d'. split_and!; [done|done|lia|lia|].
  unfold safe_integer in *. lia.
Qed.

Lemma well_formed_is_kept_witness :
  ∃ d', (run [Delete 1; Add photo "123" "again" t_focus] (ready store)).2
          = ready d' ∧
        well_formed d' ∧
        next_id store ≤ next_id d' ≤ next_id store + 2 ∧
        safe_integer (next_id d').
Proof.
  apply (well_formed_is_kept [Delete 1; Add photo "123" "again" t_focus]).
  - unfold well_formed. apply (bool_decide_unpack _). vm_compute. reflexivity.
  - unfold safe_integer, MAX_SAFE_INTEGER. simpl. lia.
  - unfold safe_integer, MAX_SAFE_INTEGER. simpl. lia.
Defined.
End store_extras.

(** ** The note tools *)

Section tool_facts.
Import JsString JsArray NotesDb NoteTools NotesSpec ServerSpec.

Lemma includes_prefixed a s pat :
  includes s pat = true → includes (a +:+ s) pat = true.
Proof.
  rewrite !includes_app. intros (pre & post & ->).
  exists (a +:+ pre), post. by rewrite string_app_assoc.
Qed.

Lemma includes_suffixed s b pat :
  includes s pat = true → includes (s +:+ b) pat = true.
Proof.
  rewrite !includes_app. intros (pre & post & ->).
  exists pre, (post +:+ b). by rewrite !string_app_assoc.
Qed.

Lemma includes_refl s : includes s s = true.
Proof. apply includes_app. exists "", "". by rewrite string_app_nil_r. Qed.

(** Each item of a [join] occurs in the joined text. *)
Lemma concat_includes sep (x : string) l :
  x ∈ l → includes (String.concat sep l) x = true.
Proof.
  induction l as [|y l IH]; [by intros ?%elem_of_nil|].
  intros Hx. destruct l as [|z l].
  - apply list_elem_of_singleton in Hx as ->. apply includes_refl.
  - change (String.concat sep (y :: z :: l))
      with (y +:+ sep +:+ String.concat sep (z :: l)).
    apply elem_of_cons in Hx as [->|Hx].
    + apply includes_suffixed, includes_refl.
    + by apply includes_prefixed, includes_prefixed, IH.
Qed.

Lemma add_note_handler_initialized w d t i n now :
  data w = Some d →
  add_note_handler t i n now w =
    ({| text := "Note #" +:+ pretty (next_id d) +:+ " added to " +:+
                entity_type_name t +:+ " `" +:+ i +:+ "`:" +:+
                String "010" ("> " +:+ n);
        isError := None |},
     ready {| next_id := next_id d + 1;
              notes := notes d ++
                       [mkNoteRow (next_id d) t i n (timestamp now)] |}).
Proof.
  intros H. unfold add_note_handler. by rewrite (addNote_initialized w d).
Qed.

Lemma get_notes_handler_initialized w d t i :
  data w = Some d →
  get_notes_handler t i w =
    (let l := sort newest_first
                (filter (λ n, entity_type n = t ∧ entity_id n = i) (notes d)) in
     {| text := get_notes_header t i (length l) +:+ formatNoteList l;
        isError := None |}, w).
Proof.
  intros H. unfold get_notes_handler. by rewrite (getNotes_initialized w d).
Qed.

Lemma search_notes_handler_initialized w d q :
  data w = Some d →
  ∃ body,
    search_notes_handler q w =
      ({| text :=
            search_notes_header q
              (length (filter (λ n, includes (toLowerCase (note n))
                                             (toLowerCase q)) (notes d))
               `min` 50) +:+ body;
          isError := None |}, w).
Proof.
  intros H. unfold search_notes_handler.
  rewrite (searchNotes_initialized w d) by done.
  rewrite length_take, sort_length, Nat.min_comm. by eexists.
Qed.

End tool_facts.

Section tool_extras.
Import JsString JsArray NotesDb NoteTools NotesSpec ServerSpec Scenario.

(** X10.  The two reading tools never change the state: whatever the
    arguments and whatever the state, [flickr_get_notes] and
    [flickr_search_notes] leave the variable and the file as they are. *)
Theorem read_tools_leave_state args w :
  (flickr_get_notes args w).2 = w ∧ (flickr_search_notes args w).2 = w.
Proof.
  split.
  - unfold flickr_get_notes. destruct (get_notes_schema args) as [[t i]|];
      [|done].
    unfold get_notes_handler. pose proof (getNotes_pure t i w) as H.
    by destruct (getNotes t i w) as [[e|l] w'].
  - unfold flickr_search_notes. destruct (search_notes_schema args) as [q|];
      [|done].
    unfold search_notes_handler. pose proof (searchNotes_pure q w) as H.
    by destruct (searchNotes q w) as [[e|l] w'].
Qed.

(** X11.  A note added through [flickr_add_note] to a store whose
    [next_id] is a safe integer is shown by [flickr_get_notes] for the
    same pair: the answer has no [isError] and its text contains the line
    of the new note, with the id and the time of the addition and the
    text as it was given. *)
Theorem added_note_is_listed w d args now t i n args' :
  data w = Some d →
  safe_integer (next_id d) →
  add_note_schema args = Some (t, i, n) →
  get_notes_schema args' = Some (t, i) →
  ∃ r,
    (flickr_get_notes args' (flickr_add_note args now w).2).1 = Response r ∧
    isError r = None ∧
    includes (text r)
      (formatNote (mkNoteRow (next_id d) t i n (timestamp now))) = true.
Proof.
  intros Hd _ Hadd Hget. unfold flickr_add_note, flickr_get_notes.
  rewrite Hadd, Hget, (add_note_handler_initialized w d) by done.
  erewrite get_notes_handler_initialized by reflexivity. simpl.
  eexists. split; [done|]. split; [done|]. simpl.
  set (row := mkNoteRow (next_id d) t i n (timestamp now)).
  set (l := sort newest_first _).
  assert (row ∈ l) as Hrow.
  { apply sort_elem_of, list_elem_of_filter. split; [done|].
    apply elem_of_app. right. by apply list_elem_of_singleton. }
  apply includes_prefixed. unfold formatNoteList.
  destruct (decide (length l = 0%nat)) as [Hl|_].
  - apply nil_length_inv in Hl. rewrite Hl in Hrow. by apply elem_of_nil in Hrow.
  - apply concat_includes, list_elem_of_fmap. by exists row.
Qed.

Lemma added_note_is_listed_witness :
  ∃ r,
    (flickr_get_notes (get_args "photo" "123")
       (flickr_add_note (add_args "photo" "123" "crop tighter") t_focus
          (ready store)).2).1 = Response r ∧
    isError r = None ∧
    includes (text r)
      (formatNote (mkNoteRow (next_id store) photo "123" "crop tighter"
                     (timestamp t_focus))) = true.
Proof.
  apply (added_note_is_listed (ready store) store); try reflexivity.
  unfold safe_integer, MAX_SAFE_INTEGER. simpl. lia.
Defined.

(** X12.  The empty query is refused by the tool only: [flickr_search_notes]
    turns a call with an empty [query] down before the handler runs, while
    [searchNotes] itself takes the empty string and returns every note,
    most recent first, up to 50 (on a store of notes stamped the way
    [addNote] stamps). *)
Theorem empty_query_refused_by_tool_only w d args :
  data w = Some d →
  Forall stamped (notes d) →
  args !! "query" = Some (JStr "") →
  flickr_search_notes args w = (InvalidParams, w) ∧
  searchNotes "" w = (inr (take 50 (sort newest_first (notes d))), w).
Proof.
  intros Hd _ Hq. split.
  - unfold flickr_search_notes, search_notes_schema. by rewrite Hq.
  - rewrite (searchNotes_initialized w d) by done.
    rewrite filter_all; [done|]. apply Forall_forall. intros r _.
    simpl. by rewrite includes_empty.
Qed.

Lemma empty_query_witness :
  flickr_search_notes (search_args "") (ready store)
    = (InvalidParams, ready store) ∧
  searchNotes "" (ready store)
    = (inr (take 50 (sort newest_first (notes store))), ready store).
Proof.
  apply (empty_query_refused_by_tool_only (ready store) store);
    [reflexivity| |reflexivity].
  by repeat constructor.
Defined.

(** X13.  The count [flickr_search_notes] reports is the number of notes
    it shows, not the number of notes that match: for a query and notes
    of ASCII text it is the number of stored notes whose text contains
    the query without regard to case, or 50 when there are more. *)
Theorem search_count_is_capped w d args q :
  data w = Some d →
  ascii_text q = true →
  Forall ascii_note (notes d) →
  search_notes_schema args = Some q →
  ∃ body,
    flickr_search_notes args w =
      (Response
         {| text :=
              search_notes_header q
                (length (filter (λ n, includes (toLowerCase (note n))
                                               (toLowerCase q)) (notes d))
                 `min` 50) +:+ body;
            isError := None |}, w).
Proof.
  intros Hd _ _ Hq. unfold flickr_search_notes. rewrite Hq.
  destruct (search_notes_handler_initialized w d q Hd) as [body ->].
  by exists body.
Qed.

Lemma search_count_witness :
  ∃ body,
    flickr_search_notes (search_args "FOCUS") (ready store) =
      (Response
         {| text :=
              search_notes_header "FOCUS"
                (length (filter (λ n, includes (toLowerCase (note n))
                                               (toLowerCase "FOCUS"))
                                (notes store))
                 `min` 50) +:+ body;
            isError := None |}, ready store).
Proof.
  apply (search_count_is_capped (ready store) store); try reflexivity.
  by repeat constructor.
Defined.

(** X14.  Called before [initNotesDb], each of the four tools answers with
    [isError] and the message of the [TypeError] the store threw, and
    leaves the state as it is: the handlers catch what the store throws. *)
Theorem note_tools_before_init w :
  data w = None →
  (∀ args now, is_Some (add_note_schema args) →
     flickr_add_note args now w =
       (Response
          {| text := "Failed to add note: Cannot read properties of undefined (reading 'next_id')";
             isError := Some true |}, w)) ∧
  (∀ args, is_Some (get_notes_schema args) →
     flickr_get_notes args w =
       (Response
          {| text := "Failed to get notes: Cannot read properties of undefined (reading 'notes')";
             isError := Some true |}, w)) ∧
  (∀ args, is_Some (delete_note_schema args) →
     flickr_delete_note args w =
       (Response
          {| text := "Failed to delete note: Cannot read properties of undefined (reading 'notes')";
             isError := Some true |}, w)) ∧
  (∀ args, is_Some (search_notes_schema args) →
     flickr_search_notes args w =
       (Response
          {| text := "Failed to search notes: Cannot read properties of undefined (reading 'notes')";
             isError := Some true |}, w)).
Proof.
  intros Hd. split_and!.
  - intros args now [[[t i] n] H]. unfold flickr_add_note, add_note_handler.
    rewrite H. run_monad. by rewrite Hd.
  - intros args [[t i] H]. unfold flickr_get_notes, get_notes_handler.
    rewrite H. run_monad. by rewrite Hd.
  - intros args [nid H]. unfold flickr_delete_note, delete_note_handler.
    rewrite H. run_monad. by rewrite Hd.
  - intros args [q H]. unfold flickr_search_notes, search_notes_handler.
    rewrite H. run_monad. by rewrite Hd.
Qed.

Lemma note_tools_before_init_witness :
  flickr_get_notes (get_args "photo" "123") boot =
    (Response
       {| text := "Failed to get notes: Cannot read properties of undefined (reading 'notes')";
          isError := Some true |}, boot).
Proof.
  destruct (note_tools_before_init boot eq_refl) as (_ & Hget & _).
  apply Hget. by eexists.
Defined.

(** X15.  The id [flickr_add_note] reports can be handed to
    [flickr_delete_note]: on an initialized store whose [next_id] is a
    safe integer the addition answers with the id in its text, and a
    deletion of that id right after answers that the note was deleted,
    without [isError]. *)
Theorem added_id_is_deletable w d args now t i n args' :
  data w = Some d →
  safe_integer (next_id d) →
  add_note_schema args = Some (t, i, n) →
  delete_note_schema args' = Some (next_id d) →
  ∃ w1 w2,
    flickr_add_note args now w =
      (Response
         {| text := "Note #" +:+ pretty (next_id d) +:+ " added to " +:+
                    entity_type_name t +:+ " `" +:+ i +:+ "`:" +:+
                    String "010" ("> " +:+ n);
            isError := None |}, w1) ∧
    flickr_delete_note args' w1 =
      (Response
         {| text := "Note #" +:+ pretty (next_id d) +:+ " deleted.";
            isError := None |}, w2).
Proof.
  intros Hd _ Hadd Hdel. unfold flickr_add_note, flickr_delete_note.
  rewrite Hadd, Hdel, (add_note_handler_initialized w d) by done.
  unfold delete_note_handler.
  set (row := mkNoteRow (next_id d) t i n (timestamp now)).
  set (d1 := {| next_id := next_id d + 1; notes := notes d ++ [row] |}).
  destruct (find_id_split (next_id d) (notes d1))
    as [Hn|(l1 & r & l2 & Hl & Hl1 & Hr)].
  - exfalso. simpl in Hn. apply Forall_app in Hn as [_ Hn%Forall_inv]. done.
  - eexists _, _. split; [done|].
    by rewrite (deleteNote_found (ready d1) d1 (next_id d) l1 r l2).
Qed.

Lemma added_id_is_deletable_witness :
  ∃ w1 w2,
    flickr_add_note (add_args "album" "9" "cover?") t_focus (ready store) =
      (Response
         {| text := "Note #" +:+ pretty (next_id store) +:+ " added to " +:+
                    entity_type_name album +:+ " `" +:+ "9" +:+ "`:" +:+
                    String "010" ("> " +:+ "cover?");
            isError := None |}, w1) ∧
    flickr_delete_note (delete_args 3) w1 =
      (Response
         {| text := "Note #" +:+ pretty (next_id store) +:+ " deleted.";
            isError := None |}, w2).
Proof.
  apply (added_id_is_deletable (ready store) store); try reflexivity.
  unfold safe_integer, MAX_SAFE_INTEGER. simpl. lia.
Defined.

(** X17.  The list of notes in an answer reads "No notes found." exactly
    when there is no note to show: no note, whatever its text, makes
    [formatNoteList] give that line. *)
Theorem formatNoteList_none_iff l :
  formatNoteList l = "No notes found." ↔ l = [].
Proof.
  split; [|by intros ->].
  unfold formatNoteList. destruct l as [|r l]; [done|]. simpl length.
  destruct (decide _) as [|_]; [done|].
  intros H. exfalso. rewrite fmap_cons in H.
  assert (formatNote r =
            String "[" ("#" +:+ pretty (id r) +:+ "] (" +:+ created_at r +:+
                        ")" +:+ String "010" ("> " +:+ note r))) as Hr
    by reflexivity.
  destruct (formatNote <$> l) as [|z zs]; simpl in H; rewrite Hr in H;
    [|rewrite app_String in H]; discriminate.
Qed.
End tool_extras.

(** ** The timestamp outside the years 0 to 9999 *)

Section timestamp_extras.
Import JsString JsDate NotesDb NotesSpec.

Create Rewrite HintDb stamp.
#[local] Hint Rewrite digits_6 digits_4 digits_3 digits_2 app_String app_empty
  : stamp.

Lemma same_minute_fields t1 t2 :
  t1 `div` 60000 = t2 `div` 60000 →
  Day t1 = Day t2 ∧ HourFromTime t1 = HourFromTime t2 ∧
  MinFromTime t1 = MinFromTime t2.
Proof.
  intros H. unfold Day, HourFromTime, MinFromTime.
  unfold msPerDay, msPerHour, msPerMinute.
  change 86400000 with (60000 * 1440). change 3600000 with (60000 * 60).
  rewrite <-!Z.div_div by lia. by rewrite H.
Qed.

Lemma timestamp_length now : String.length (timestamp now) = 19%nat.
Proof.
  destruct (decide (0 ≤ YearFromTime now ≤ 9999)) as [Hy|Hy].
  - rewrite timestamp_four_digit_year by done. by autorewrite with stamp.
  - rewrite timestamp_expanded_year by done.
    destruct (decide (YearFromTime now < 0)); by autorewrite with stamp.
Qed.

(** X8.  Outside the years 0 to 9999 the timestamp of [addNote] has no
    seconds: [toISOString] then writes the year with a sign and six
    digits, and the first 19 characters end with the minutes, so that two
    times of the same minute get the same [created_at]; the length is 19
    as for every time. *)
Theorem timestamp_expanded_year_drops_seconds t1 t2 :
  ¬ four_digit_year t1 →
  t1 `div` 60000 = t2 `div` 60000 →
  timestamp t1 = timestamp t2 ∧ String.length (timestamp t1) = 19%nat.
Proof.
  intros Hy H. split; [|apply timestamp_length].
  destruct (same_minute_fields t1 t2 H) as (Hd & Hh & Hm).
  assert (YearFromTime t1 = YearFromTime t2) as HY
    by (unfold YearFromTime; by rewrite Hd).
  assert (MonthFromTime t1 = MonthFromTime t2) as HM
    by (unfold MonthFromTime; by rewrite Hd).
  assert (DateFromTime t1 = DateFromTime t2) as HD
    by (unfold DateFromTime; by rewrite Hd).
  rewrite four_digit_year_iff in Hy.
  rewrite !timestamp_expanded_year by (by rewrite <-?HY).
  by rewrite HY, HM, HD, Hh, Hm.
Qed.

Lemma timestamp_expanded_year_witness :
  timestamp 253402300800000 = timestamp 253402300859999 ∧
  String.length (timestamp 253402300800000) = 19%nat.
Proof.
  apply timestamp_expanded_year_drops_seconds; [|reflexivity].
  unfold four_digit_year. lia.
Defined.
End timestamp_extras.

(** ** The Flickr client *)

Section client_facts.
Import FlickrClient ServerSpec.

Lemma truthy_string_set env name :
  truthy_string (env !! name) = true ↔ is_set env name.
Proof.
  unfold truthy_string, is_set. destruct (env !! name) as [v|].
  - rewrite bool_decide_eq_true. split.
    + intros ?. by exists v.
    + by intros (? & [= <-] & ?).
  - split; [done|]. by intros (? & ? & ?).
Qed.

Lemma push_if_missing_filter env name missing :
  push_if_missing (env !! name) name missing =
  missing ++ filter (λ n, ¬ is_set env n) [name].
Proof.
  unfold push_if_missing. rewrite filter_cons, filter_nil.
  destruct (truthy_string (env !! name)) eqn:H.
  - apply truthy_string_set in H. rewrite decide_False by (by intros ?).
    by rewrite app_nil_r.
  - rewrite decide_True; [done|]. intros Hs%truthy_string_set. congruence.
Qed.

Lemma is_set_default env name :
  is_set env name → env !! name = Some (default "" (env !! name)).
Proof. by intros (v & -> & _). Qed.

(** [loadCredentials] by the variables that are not set. *)
Lemma loadCredentials_unset env :
  loadCredentials env =
    if decide (filter (λ n, ¬ is_set env n) credential_names = []) then
      inr {| consumerKey := default "" (env !! "FLICKR_CONSUMER_KEY");
             consumerSecret := default "" (env !! "FLICKR_CONSUMER_SECRET");
             oauthToken := default "" (env !! "FLICKR_OAUTH_TOKEN");
             oauthTokenSecret :=
               default "" (env !! "FLICKR_OAUTH_TOKEN_SECRET") |}
    else
      inl (Error (missing_variables
                    (filter (λ n, ¬ is_set env n) credential_names))).
Proof.
  unfold loadCredentials. rewrite !push_if_missing_filter.
  rewrite app_nil_l, <-!filter_app.
  change ((([_] ++ [_]) ++ [_]) ++ [_]) with credential_names.
  destruct (filter _ credential_names) as [|x l]; simpl length.
  - rewrite decide_False by lia. by rewrite decide_True.
  - rewrite decide_True by lia. by rewrite decide_False.
Qed.

Lemma unset_nil_iff env l :
  filter (λ n, ¬ is_set env n) l = [] ↔ Forall (is_set env) l.
Proof.
  induction l as [|x l IH].
  - rewrite filter_nil. split; [constructor|done].
  - rewrite filter_cons, Forall_cons.
    destruct (decide (¬ is_set env x)) as [Hx|Hx%dec_stable].
    + split; [done|]. by intros [? _].
    + rewrite IH. tauto.
Qed.
End client_facts.

Section client_extras.
Import FlickrClient ServerSpec Scenario.

(** X18.  [loadCredentials] returns the credentials exactly when the four
    variables are all set, each to a string that is not empty, and the
    credentials are then the values of the variables; otherwise the
    message of the error it throws names the variables that are not set,
    all of them, in the order key, secret, token, token secret. *)
Theorem loadCredentials_names_what_is_missing env :
  match loadCredentials env with
  | inr c =>
      Forall (is_set env) credential_names ∧
      env !! "FLICKR_CONSUMER_KEY" = Some (consumerKey c) ∧
      env !! "FLICKR_CONSUMER_SECRET" = Some (consumerSecret c) ∧
      env !! "FLICKR_OAUTH_TOKEN" = Some (oauthToken c) ∧
      env !! "FLICKR_OAUTH_TOKEN_SECRET" = Some (oauthTokenSecret c)
  | inl e =>
      ¬ Forall (is_set env) credential_names ∧
      exn_message e =
        missing_variables (filter (λ n, ¬ is_set env n) credential_names)
  end.
Proof.
  rewrite loadCredentials_unset.
  destruct (decide _) as [Hnil|Hnil]; rewrite unset_nil_iff in Hnil.
  - split; [done|]. simpl.
    unfold credential_names in Hnil. rewrite !Forall_cons in Hnil.
    destruct Hnil as (H1 & H2 & H3 & H4 & _).
    split_and!; by apply is_set_default.
  - done.
Qed.

(** X19.  A call of [initFlickrClient] that fails leaves the user id as
    it was.  With a variable missing it leaves the client too; when the
    credentials load and Flickr turns the login down, the client made
    from them is installed all the same, so that [getFlickr] returns it
    although the call has thrown. *)
Theorem initFlickrClient_failure env remote c e c' :
  initFlickrClient env remote c = (inl e, c') →
  _userId c' = _userId c ∧
  match loadCredentials env with
  | inl e0 => e = e0 ∧ c' = c
  | inr creds => getFlickr c' = inr creds ∧ ∃ m, remote creds = inl m
  end.
Proof.
  unfold initFlickrClient, validateCredentials.
  destruct (loadCredentials env) as [e0|creds].
  - by intros [= <- <-].
  - destruct (remote creds) as [m|[userId username]]; [|done].
    intros [= <- <-]. split; [done|]. split; [done|]. by exists m.
Qed.

Lemma initFlickrClient_failure_witness :
  ∃ e c',
    initFlickrClient env_set rejects (mkClient None None) = (inl e, c') ∧
    _userId c' = _userId (mkClient None None) ∧
    match loadCredentials env_set with
    | inl e0 => e = e0 ∧ c' = mkClient None None
    | inr creds => getFlickr c' = inr creds ∧ ∃ m, rejects creds = inl m
    end.
Proof.
  eexists _, _. split; [vm_compute; reflexivity|].
  apply (initFlickrClient_failure env_set rejects (mkClient None None)).
  vm_compute. reflexivity.
Defined.

(** X20.  After a call of [initFlickrClient] that returns, the variables
    were all set and Flickr accepted the login; [getFlickr] returns the
    client made from the credentials, and [getUserId] returns the id
    Flickr gave, unless that id is the empty string: then [getUserId]
    throws as if the client had not been initialized. *)
Theorem initFlickrClient_success env remote c userId username c' :
  initFlickrClient env remote c = (inr (userId, username), c') →
  ∃ creds,
    loadCredentials env = inr creds ∧
    remote creds = inr (userId, username) ∧
    getFlickr c' = inr creds ∧
    getUserId c' =
      if decide (userId = "") then inl not_initialized else inr userId.
Proof.
  unfold initFlickrClient, validateCredentials.
  destruct (loadCredentials env) as [e0|creds]; [done|].
  destruct (remote creds) as [m|[u n]] eqn:Hr; [done|].
  intros [= -> -> <-]. exists creds. split_and!; [done|done|done|].
  unfold getUserId. simpl. by destruct (decide (userId = "")) as [->|?];
    [|rewrite bool_decide_true].
Qed.

Lemma initFlickrClient_success_witness :
  ∃ creds,
    loadCredentials env_set = inr creds ∧
    accepts creds = inr ("12345678@N00", "soctib") ∧
    getFlickr (initFlickrClient env_set accepts (mkClient None None)).2
      = inr creds ∧
    getUserId (initFlickrClient env_set accepts (mkClient None None)).2 =
      if decide ("12345678@N00" = "") then inl not_initialized
      else inr "12345678@N00".
Proof.
  apply (initFlickrClient_success env_set accepts (mkClient None None)
           "12345678@N00" "soctib").
  vm_compute. reflexivity.
Defined.

(** X21.  In [formatFlickrError] a code of the table decides the text,
    whatever the message of the error; every other value, one without a
    code or with a code that is not in the table, gives a text that
    starts with "Flickr API error: " and goes on with the message, or with
    [String(err)] when there is no message or an empty one.  The tests
    for a code of zero and for an empty text of the table change
    nothing. *)
Theorem formatFlickrError_table_first err :
  formatFlickrError err =
    match code_of err ≫= (FLICKR_ERROR_MESSAGES !!.) with
    | Some described => described
    | None =>
        "Flickr API error: " +:+
        match message_of err with
        | Some m => if decide (m = "") then String_of err else m
        | None => String_of err
        end
    end.
Proof.
  unfold formatFlickrError.
  assert (truthy_string (message_of err) =
            match message_of err with
            | Some m => if decide (m = "") then false else true
            | None => false
            end) as Hm.
  { destruct (message_of err) as [m|]; [|done]. simpl.
    destruct (decide (m = "")) as [->|?]; [done|by rewrite bool_decide_true]. }
  destruct (code_of err) as [c|] eqn:Hc; simpl.
  - destruct (FLICKR_ERROR_MESSAGES !! c) as [described|] eqn:Hl; simpl.
    + apply elem_of_list_to_map_2 in Hl.
      repeat (apply elem_of_cons in Hl as [[= -> ->]|Hl]; [done|]).
      by apply elem_of_nil in Hl.
    + rewrite andb_false_r, Hm. destruct (message_of err) as [m|]; [|done].
      simpl. by destruct (decide (m = "")).
  - rewrite Hm. destruct (message_of err) as [m|]; [|done].
    simpl. by destruct (decide (m = "")).
Qed.
End client_extras.

(** ** The start of the server *)

Section server_extras.
Import NotesDb NoteTools FlickrClient Server NotesSpec ServerSpec Scenario.

(** X22.  With one of the four variables not set, [main] ends the process
    with the code 1 whatever Flickr would answer to the login: the client
    and the store are as they were, no [notes.json] is made, and the one
    line written to the standard error names the variables that are not
    set. *)
Theorem main_missing_variable env remote transport p :
  ¬ Forall (is_set env) credential_names →
  main env remote transport p =
    Exited 1
      {| client := client p; world := world p;
         stderr := stderr p ++
           ["Flickr MCP Server startup failed: " +:+
            missing_variables
              (filter (λ n, ¬ is_set env n) credential_names)] |}.
Proof.
  intros Hset. unfold main, initFlickrClient.
  rewrite loadCredentials_unset, decide_False; [done|].
  by rewrite unset_nil_iff.
Qed.

Lemma main_missing_variable_witness :
  main env_no_token accepts None (started None) =
    Exited 1
      {| client := client (started None); world := world (started None);
         stderr := stderr (started None) ++
           ["Flickr MCP Server startup failed: " +:+
            missing_variables
              (filter (λ n, ¬ is_set env_no_token n) credential_names)] |}.
Proof.
  apply main_missing_variable. rewrite <-unset_nil_iff. vm_compute. discriminate.
Defined.

(** X23.  When Flickr turns the login down, [main] ends the process with
    the code 1 before the store is touched: [initNotesDb] has not run, no
    [notes.json] is made, and one line is written to the standard
    error. *)
Theorem main_login_refused env remote transport p creds m :
  loadCredentials env = inr creds →
  remote creds = inl m →
  ∃ line p',
    main env remote transport p = Exited 1 p' ∧
    world p' = world p ∧
    stderr p' = stderr p ++ [line] ∧
    getFlickr (client p') = inr creds.
Proof.
  intros Hc Hr. unfold main, initFlickrClient, validateCredentials.
  rewrite Hc, Hr. by eexists _, _.
Qed.

Lemma main_login_refused_witness :
  ∃ line p',
    main env_set rejects None (started None) = Exited 1 p' ∧
    world p' = world (started None) ∧
    stderr p' = stderr (started None) ++ [line] ∧
    getFlickr (client p') =
      inr (mkFlickrCredentials "key" "secret" "token" "token-secret").
Proof.
  apply (main_login_refused env_set rejects None (started None) _
           "Invalid auth token"); reflexivity.
Defined.

(** X24.  [main] gets to the running server exactly when the four
    variables are set, Flickr accepts the login and the transport
    connects.  The process then holds the client and the id of the user,
    the store is initialized with the document of [notes.json], or with
    the empty store and a new file when there was none, and three lines
    were written to the standard error.  The file is taken to be absent
    or to hold a document of the store. *)
Theorem main_running_iff env remote transport file p :
  main env remote transport (started file) = Running p ↔
  transport = None ∧
  ∃ creds userId username,
    loadCredentials env = inr creds ∧
    remote creds = inr (userId, username) ∧
    p = {| client := {| _flickr := Some creds; _userId := Some userId |};
           world := ready (default {| next_id := 1; notes := [] |} file);
           stderr :=
             ["Flickr MCP Server: authenticated as " +:+ username +:+
              " (" +:+ userId +:+ ")";
              "Flickr MCP Server: notes database initialized";
              "Flickr MCP Server running on stdio"] |}.
Proof.
  assert (initNotesDb {| data := None; file := file |} =
            (inr (), ready (default {| next_id := 1; notes := [] |} file)))
    as Hinit.
  { destruct file as [doc|]; [by apply initNotesDb_file|done]. }
  unfold main, initFlickrClient, validateCredentials. simpl.
  destruct (loadCredentials env) as [e|creds].
  { split; [done|]. by intros (_ & ? & ? & ? & ? & _). }
  destruct (remote creds) as [m|[userId username]] eqn:Hr; simpl.
  { split; [done|]. intros (_ & ? & ? & ? & [= <-] & ? & _). congruence. }
  rewrite Hinit. destruct transport as [err|]; simpl.
  { split; [done|]. by intros [? _]. }
  split.
  - intros [= <-]. split; [done|]. by exists creds, userId, username.
  - intros (_ & ? & ? & ? & [= <-] & Hr' & ->). rewrite Hr in Hr'.
    by injection Hr' as <- <-.
Qed.

End server_extras.
